(** * QuestTube asset clean-up: flood-fill cleaner and circular masker

    Shallow embedding of [extension/assets/clean_assets.py] (function
    [clean_image], helper [get_distance]) and of
    [extension/assets/force_crop.py] (function [circular_crop]).

    The embedding covers what lies between [Image.open(...).convert]
    and [save]: the spec calls these two cores [clean] and [apply].

    An RGBA image is a width, a height and a finite map from coordinates
    to four-channel pixels, as PIL's pixel access object presents it.
    The two Python sets [visited] and [to_clear] are finite sets of
    coordinates; the work queue is a list used first-in first-out. *)

From Stdlib Require Import ZArith QArith Lia Lqa List.
From stdpp Require Import base tactics option list gmap sets fin_maps.

Local Open Scope Z_scope.

#[local] Set Warnings "-clear-no-such-hyp".

(** ** Results of fallible steps *)

(** [IndexError] is what PIL raises for a pixel access outside the image,
    [ValueError] what it raises when the sizes given to [paste] disagree
    or when a drawing primitive rejects its arguments.  [OutOfFuel] is
    not a Python exception: it marks a [while] loop cut off by the
    iteration bound of this embedding. *)
Inductive error := IndexError | ValueError | OutOfFuel.

Inductive result (A : Type) : Type :=
| Ok (a : A)
| Err (e : error).
Arguments Ok {A} a.
Arguments Err {A} e.

Definition bind {A B} (r : result A) (k : A → result B) : result B :=
  match r with
  | Ok a => k a
  | Err e => Err e
  end.

Notation "x ← r ;;; k" := (bind r (λ x, k))
  (at level 20, r at level 100, k at level 200, right associativity,
   format "x  ←  r  ;;;  '/' k").

(** ** Pixels and images *)

Definition coord : Type := Z * Z.

(** A pixel of an RGBA image: the tuple [(r, g, b, a)]. *)
Definition color : Type := Z * Z * Z * Z.

Definition alpha (c : color) : Z := snd c.

(** The tuple as the sequence Python slices and zips. *)
Definition channels (c : color) : list Z :=
  let '(r, g, b, a) := c in [r; g; b; a].

Definition transparent_black : color := (0, 0, 0, 0).

(** A PIL image: its size and its pixel store.  Mode [RGBA] stores
    [color]s, mode [L] stores one 8-bit value per pixel. *)
Record raster (A : Type) := Image {
  width : Z;
  height : Z;
  pixels : gmap coord A
}.
Arguments Image {A} _ _ _.
Arguments width {A} _.
Arguments height {A} _.
Arguments pixels {A} _.

Definition image : Type := raster color.

(** [range(n)] *)
Definition range (n : Z) : list Z := Z.of_nat <$> seq 0 (Z.to_nat n).

Definition all_coords (W H : Z) : list coord :=
  x ← range W; y ← range H; [(x, y)].

Definition bounds (W H : Z) : gset coord := list_to_set (all_coords W H).

(** The four channels are 8-bit values. *)
Definition pixel_ok (p : color) : Prop :=
  Forall (λ n, 0 ≤ n ≤ 255) (channels p).

(** An image as the loader hands it over: at least one pixel wide and
    high, a pixel stored exactly at the coordinates inside it, and every
    channel a byte. *)
Definition wf_image (im : image) : Prop :=
  1 ≤ width im ∧ 1 ≤ height im ∧
  dom (pixels im) = bounds (width im) (height im) ∧
  map_Forall (λ _ p, pixel_ok p) (pixels im).

(** The index check of PIL's pixel access object for an image of size
    [W] by [H]: a negative index counts from the far edge, and an index
    that is then outside the image raises [IndexError]. *)
Definition pixel_index (W H : Z) (c : coord) : result coord :=
  let x := if c.1 <? 0 then W + c.1 else c.1 in
  let y := if c.2 <? 0 then H + c.2 else c.2 in
  if (0 <=? x) && (x <? W) && (0 <=? y) && (y <? H) then Ok (x, y)
  else Err IndexError.

(** [pixels[x, y]] *)
Definition getpixel (W H : Z) (px : gmap coord color) (c : coord)
  : result color :=
  i ← pixel_index W H c;;;
  match px !! i with
  | Some p => Ok p
  | None => Err IndexError
  end.

(** [pixels[x, y] = v] *)
Definition putpixel (W H : Z) (px : gmap coord color) (c : coord) (v : color)
  : result (gmap coord color) :=
  i ← pixel_index W H c;;;
  match px !! i with
  | Some _ => Ok (<[i := v]> px)
  | None => Err IndexError
  end.

(** ** clean_assets.py *)

Module Cleaner.

(** [sum((a - b) ** 2 for a, b in zip(c1[:3], c2[:3]))]: the number
    under the square root of [get_distance].  The channels are integers,
    so this sum is an integer, and [get_distance] is its square root. *)
Fixpoint sum_sq (l1 l2 : list Z) : Z :=
  match l1, l2 with
  | a :: l1', b :: l2' => (a - b) ^ 2 + sum_sq l1' l2'
  | _, _ => 0
  end.

Definition get_distance_sq (c1 c2 : list Z) : Z :=
  sum_sq (take 3 c1) (take 3 c2).

(** [get_distance(c1, c2) <= tolerance] for an integer tolerance, as in
    every call of the file.  The distance is the square root of the
    integer [get_distance_sq c1 c2], so it is at most [tolerance] exactly
    when the tolerance is not negative and the sum of squares is at most
    its square.  ([math.sqrt] rounds, but it is monotone and exact on
    squares, and for byte channels the sum is at most [3 * 255 ^ 2], so
    the rounded root compares with an integer as the exact one does.) *)
Definition distance_le (c1 c2 : list Z) (tolerance : Z) : bool :=
  (0 <=? tolerance) && (get_distance_sq c1 c2 <=? tolerance * tolerance).

(** [get_distance(c1, c2) < tolerance], likewise. *)
Definition distance_lt (c1 c2 : list Z) (tolerance : Z) : bool :=
  (0 <? tolerance) && (get_distance_sq c1 c2 <? tolerance * tolerance).

(** The mutable data of one call: the pixel access object and the two
    sets. *)
Record state := State {
  st_pixels : gmap coord color;
  visited : gset coord;
  to_clear : gset coord
}.

(** Lines 18-24: the border coordinates in the order they are appended. *)
Definition border_pixels (W H : Z) : list coord :=
  (x ← range W; [(x, 0); (x, H - 1)]) ++
  (y ← range H; [(0, y); (W - 1, y)]).

(** Lines 63-66: the neighbours of [(x, y)] that lie inside the image,
    in the order they are appended to the queue. *)
Definition neighbours (W H : Z) (c : coord) : list coord :=
  let '(x, y) := c in
  filter (λ n : coord, 0 ≤ n.1 < W ∧ 0 ≤ n.2 < H)
         ((λ d : coord, (x + d.1, y + d.2)) <$> [(-1, 0); (1, 0); (0, -1); (0, 1)]).

(** Lines 53-66: one iteration of the [while queue] loop, after
    [queue.pop(0)] has returned [c] and left [queue]. *)
Definition flood_iter (W H tolerance : Z) (start_color : color)
    (c : coord) (queue : list coord) (st : state)
  : result (list coord * state) :=
  if decide (c ∈ visited st) then Ok (queue, st)
  else
    let st := State (st_pixels st) ({[c]} ∪ visited st) (to_clear st) in
    p ← getpixel W H (st_pixels st) c;;;
    if distance_le (channels p) (channels start_color) tolerance then
      px ← putpixel W H (st_pixels st) c transparent_black;;;
      Ok (queue ++ neighbours W H c,
          State px (visited st) ({[c]} ∪ to_clear st))
    else Ok (queue, st).

(** Line 52: the [while queue] loop; [fuel] bounds its iterations. *)
Fixpoint flood (fuel : nat) (W H tolerance : Z) (start_color : color)
    (queue : list coord) (st : state) : result state :=
  match queue with
  | [] => Ok st
  | c :: queue =>
    match fuel with
    | O => Err OutOfFuel
    | S fuel =>
      qs ← flood_iter W H tolerance start_color c queue st;;;
      flood fuel W H tolerance start_color qs.1 qs.2
    end
  end.

(** Iterations granted to one [while] loop.  Every iteration either
    discards a queue entry or visits a new pixel and appends at most
    four entries, so [4 * W * H + 1] iterations empty the queue
    (lemma [flood_total] below). *)
Definition flood_fuel (W H : Z) : nat := Z.to_nat (4 * W * H + 1).

(** Lines 37-41: the hint loop. *)
Fixpoint hint_match (color0 : color) (bg_hints : list (list Z)) (tolerance : Z)
  : bool :=
  match bg_hints with
  | [] => false
  | hint :: bg_hints =>
    if distance_lt (channels color0) hint tolerance then true
    else hint_match color0 bg_hints tolerance
  end.

(** Lines 27-66: the body of the loop over the border pixels. *)
Definition seed_step (W H : Z) (bg_hints : list (list Z)) (tolerance : Z)
    (b : coord) (st : state) : result state :=
  if decide (b ∈ visited st) then Ok st
  else
    color0 ← getpixel W H (st_pixels st) b;;;
    if alpha color0 =? 0 then Ok st
    else
      let is_bg := hint_match color0 bg_hints tolerance in
      let is_bg := true in
      if is_bg then
        flood (flood_fuel W H) W H tolerance color0 [b] st
      else Ok st.

(** Line 26: the loop over the border pixels. *)
Fixpoint seed_loop (W H : Z) (bg_hints : list (list Z)) (tolerance : Z)
    (bs : list coord) (st : state) : result state :=
  match bs with
  | [] => Ok st
  | b :: bs =>
    st ← seed_step W H bg_hints tolerance b st;;;
    seed_loop W H bg_hints tolerance bs st
  end.

Definition init (im : image) : state := State (pixels im) ∅ ∅.

(** The state when the loop over the border has finished. *)
Definition clean_state (im : image) (bg_hints : list (list Z)) (tolerance : Z)
  : result state :=
  seed_loop (width im) (height im) bg_hints tolerance
    (border_pixels (width im) (height im)) (init im).

(** [clean_image]: the image as it is saved and the number that is printed,
    [len(to_clear)]. *)
Definition clean_image (im : image) (bg_hints : list (list Z)) (tolerance : Z)
  : result (image * nat) :=
  st ← clean_state im bg_hints tolerance;;;
  Ok (Image (width im) (height im) (st_pixels st), size (to_clear st)).

End Cleaner.

(** ** force_crop.py *)

Module Masker.

(** The bounding box [(x0, y0, x1, y1)] handed to [draw.ellipse].  The
    divisions of lines 16-17 are true divisions of integers by two, so
    the coordinates are (exactly representable) halves: rationals. *)
Definition box : Type := Q * Q * Q * Q.

(** Line 16: [radius = min(width, height) / 2 - 2] *)
Definition radius (W H : Z) : Q := (inject_Z (Z.min W H) / 2 - 2)%Q.

(** Line 17: [center_x, center_y = width / 2, height / 2] *)
Definition center (W H : Z) : Q * Q := ((inject_Z W / 2)%Q, (inject_Z H / 2)%Q).

(** Line 19: the tuple passed to [draw.ellipse]. *)
Definition ellipse_box (W H : Z) : box :=
  let radius := radius W H in
  let '(center_x, center_y) := center W H in
  ((center_x - radius)%Q, (center_y - radius)%Q,
   (center_x + radius)%Q, (center_y + radius)%Q).

(** [Image.new(mode, (width, height), v)] *)
Definition image_new {A} (W H : Z) (v : A) : raster A :=
  Image W H (gset_to_gmap v (bounds W H)).

(** Line 23, [dst.paste(src, (0, 0), mask=mask)], for a mask whose values are 0 or
    255: where the mask is 255 the source pixel is copied, elsewhere the
    destination keeps its pixel.  (PIL blends at the values in between;
    the mask built by [circular_mask] has none, lemma
    [circular_mask_values].)  PIL raises [ValueError] when the mask and
    the source differ in size. *)
Definition paste (dst src : image) (mask : raster Z) : result image :=
  if (width mask =? width src) && (height mask =? height src) then
    Ok (Image (width dst) (height dst)
          (map_imap (λ c d,
             match pixels mask !! c, pixels src !! c with
             | Some m, Some s => Some (if m =? 255 then s else d)
             | _, _ => Some d
             end) (pixels dst)))
  else Err ValueError.

Section Primitive.

(** PIL's [ImageDraw.ellipse] is not part of the repository.  It is taken
    as a parameter: given the bounding box it either rejects it or
    decides, for each pixel, whether the filled ellipse covers it. *)
Variable draw_ellipse : box → result (coord → bool).

(** Lines 11-19: the mask image, zero everywhere, with the ellipse drawn
    into it with [fill=255]. *)
Definition circular_mask (W H : Z) : result (raster Z) :=
  let mask := image_new W H 0 in
  covers ← draw_ellipse (ellipse_box W H);;;
  Ok (Image W H (map_imap (λ c v, Some (if covers c then 255 else v))
                          (pixels mask))).

(** Lines 8-23: [circular_crop], from the decoded image to the image
    that is saved. *)
Definition circular_crop (img : image) : result image :=
  let W := width img in
  let H := height img in
  mask ← circular_mask W H;;;
  let result := image_new W H transparent_black in
  paste result img mask.

End Primitive.







(** The primitive accepts every box. *)
Definition accepts_all (draw_ellipse : box → result (coord → bool)) : Prop :=
  ∀ bx, ∃ covers, draw_ellipse bx = Ok covers.

(** Modelled from the spec: a drawing primitive as §4.3 step 3 describes
    it, in place of PIL's, which is not in the repository.  This one
    covers exactly the closed ellipse inscribed in the box and accepts
    every box. *)
Definition ideal_ellipse (bx : box) : result (coord → bool) :=
  Ok (λ c,
    let '(x0, y0, x1, y1) := bx in
    let mx := ((x0 + x1) / 2)%Q in let my := ((y0 + y1) / 2)%Q in
    let a := ((x1 - x0) / 2)%Q in let b := ((y1 - y0) / 2)%Q in
    let dx := (inject_Z c.1 - mx)%Q in let dy := (inject_Z c.2 - my)%Q in
    Qle_bool (- a) dx && Qle_bool dx a && Qle_bool (- b) dy && Qle_bool dy b &&
    Qle_bool (b ^ 2 * dx ^ 2 + a ^ 2 * dy ^ 2) (a ^ 2 * b ^ 2)).

(** A primitive that rejects a box whose right edge lies left of its
    left edge, or whose lower edge lies above its upper edge, and
    otherwise draws as [ideal_ellipse] does.  PIL's [ImageDraw.ellipse]
    checks its box in this way in the releases that validate their
    arguments (x1 must be greater than or equal to x0, and likewise y1),
    and raises [ValueError]. *)
Definition strict_ellipse (bx : box) : result (coord → bool) :=
  let '(x0, y0, x1, y1) := bx in
  if Qle_bool x0 x1 && Qle_bool y0 y1 then ideal_ellipse bx
  else Err ValueError.

End Masker.

(** ** Test images *)

Definition image_of (W H : Z) (f : coord → color) : image :=
  Image W H (list_to_map ((λ c, (c, f c)) <$> all_coords W H)).

(** Three pixels in a row: black, red, red. *)
Definition row3 : image :=
  image_of 3 1 (λ c, if c.1 =? 0 then (0, 0, 0, 255) else (100, 0, 0, 255)).

(** Two grey pixels in a row, the second fully transparent. *)
Definition pair2 : image :=
  image_of 2 1 (λ c, if c.1 =? 0 then (10, 10, 10, 255) else (10, 10, 10, 0)).

(** One opaque white pixel. *)
Definition dot1 : image := image_of 1 1 (λ _, (255, 255, 255, 255)).

(** Scenario A: 10 by 10, one opaque colour. *)
Definition uniform10 : image := image_of 10 10 (λ _, (40, 80, 120, 255)).

(** Scenario B: 5 by 5, white with an opaque green centre. *)
Definition green_centre5 : image :=
  image_of 5 5 (λ c, if (c.1 =? 2) && (c.2 =? 2) then (0, 255, 0, 255)
                     else (255, 255, 255, 255)).

(** Scenario C: 20 by 20, fully opaque. *)
Definition opaque20 : image := image_of 20 20 (λ c, (c.1, c.2, 7, 255)).

(** ** What the claims speak of *)

Import Cleaner.

(** 4-adjacency. *)
Definition adjacent (c c' : coord) : Prop :=
  c' ∈ [(c.1 - 1, c.2); (c.1 + 1, c.2); (c.1, c.2 - 1); (c.1, c.2 + 1)].

(** The pixel stored at [c] is within [tolerance] of the colour [ref]. *)
Definition within (px : gmap coord color) (tolerance : Z) (ref : color)
    (c : coord) : Prop :=
  ∃ p, px !! c = Some p ∧
       distance_le (channels p) (channels ref) tolerance = true.

(** [region px W H tolerance V0 ref s c]: [c] is reached from [s] along
    4-adjacent pixels of the image, each within [tolerance] of [ref] and
    none of them in [V0]. *)
Inductive region (px : gmap coord color) (W H tolerance : Z)
    (V0 : gset coord) (ref : color) (s : coord) : coord → Prop :=
| region_seed :
    s ∈ bounds W H → s ∉ V0 → within px tolerance ref s →
    region px W H tolerance V0 ref s s
| region_step c c' :
    region px W H tolerance V0 ref s c →
    adjacent c c' → c' ∈ bounds W H → c' ∉ V0 → within px tolerance ref c' →
    region px W H tolerance V0 ref s c'.

(** The loop over [bs], started in [st0], selects [s] as a seed: it
    reaches [s] in a state where [s] is not visited and its pixel [ref]
    is not transparent; [V0] is the visited set at that moment. *)
Definition selected_from (W H : Z) (bg_hints : list (list Z)) (tolerance : Z)
    (bs : list coord) (st0 : state)
    (s : coord) (ref : color) (V0 : gset coord) : Prop :=
  ∃ pre post st,
    bs = pre ++ s :: post ∧
    seed_loop W H bg_hints tolerance pre st0 = Ok st ∧
    (s ∉ visited st) ∧ getpixel W H (st_pixels st) s = Ok ref ∧
    alpha ref ≠ 0 ∧
    V0 = visited st.

(** The seeds of a call of [clean_image]. *)
Definition selected (im : image) (bg_hints : list (list Z)) (tolerance : Z)
    (s : coord) (ref : color) (V0 : gset coord) : Prop :=
  selected_from (width im) (height im) bg_hints tolerance
    (border_pixels (width im) (height im)) (init im) s ref V0.

(** The property of the spec's §8, second item, as it is worded: the
    cleared pixels are exactly those reachable from some seed through
    pixels within tolerance of that seed's colour, and the others are
    unchanged. *)
Definition clears_reachable_region (im : image) (bg_hints : list (list Z))
    (tolerance : Z) : Prop :=
  ∀ st', clean_state im bg_hints tolerance = Ok st' →
    ∀ c,
      (c ∈ to_clear st' ↔
       ∃ s ref V0, selected im bg_hints tolerance s ref V0 ∧
         region (pixels im) (width im) (height im) tolerance ∅ ref s c) ∧
      ((¬ ∃ s ref V0, selected im bg_hints tolerance s ref V0 ∧
          region (pixels im) (width im) (height im) tolerance ∅ ref s c) →
       st_pixels st' !! c = pixels im !! c).

(** Alpha of [c] was not zero in [im] and is zero in [im']. *)
Definition went_transparent (im im' : image) (c : coord) : bool :=
  match pixels im !! c, pixels im' !! c with
  | Some p, Some p' => negb (alpha p =? 0) && (alpha p' =? 0)
  | _, _ => false
  end.

Definition newly_transparent (im im' : image) : gset coord :=
  filter (λ c, went_transparent im im' c = true)
         (bounds (width im) (height im)).

(** Pixels of [T] whose alpha was already zero in [im]. *)
Definition already_transparent (im : image) (T : gset coord) : gset coord :=
  filter (λ c, alpha <$> pixels im !! c = Some 0) T.

(** §8, third item, as worded. *)
Definition counts_alpha_transitions (im : image) (bg_hints : list (list Z))
    (tolerance : Z) : Prop :=
  ∀ im' n, clean_image im bg_hints tolerance = Ok (im', n) →
    n = size (newly_transparent im im').

(** §8, fourth item, as worded. *)
Definition second_run_is_noop (im : image) (bg_hints : list (list Z))
    (tolerance : Z) : Prop :=
  ∀ im1 n1, clean_image im bg_hints tolerance = Ok (im1, n1) →
    clean_image im1 bg_hints tolerance = Ok (im1, 0%nat).

(** Every border pixel of [im] is stored and fully transparent. *)
Definition border_transparent (im : image) : Prop :=
  ∀ b, b ∈ border_pixels (width im) (height im) →
    alpha <$> pixels im !! b = Some 0.

(** §4.2 step 4 as worded: clearing sets alpha to 0 and keeps r, g, b. *)
Definition clearing_keeps_rgb (im : image) (bg_hints : list (list Z))
    (tolerance : Z) : Prop :=
  ∀ st' c r g b a, clean_state im bg_hints tolerance = Ok st' →
    c ∈ to_clear st' → pixels im !! c = Some (r, g, b, a) →
    st_pixels st' !! c = Some (r, g, b, 0).

(** The seed test of lines 27-33, as a proposition on the state. *)
Definition seeds_at (W H : Z) (st : state) (b : coord) (ref : color) : Prop :=
  (b ∉ visited st) ∧ getpixel W H (st_pixels st) b = Ok ref ∧ alpha ref ≠ 0.

(** [wf_image] as a test. *)
Definition wf_imageb (im : image) : bool :=
  (1 <=? width im) && (1 <=? height im) &&
  bool_decide (dom (pixels im) = bounds (width im) (height im)) &&
  bool_decide (map_Forall (λ _ p, pixel_ok p) (pixels im)).

(** Six by six, fully opaque. *)
Definition opaque6 : image := image_of 6 6 (λ c, (c.1, c.2, 7, 255)).

(** ** Invariants of the two loops *)

(** What holds of the state between any two iterations, with [P0] the
    pixels of the image as loaded: the sets stay inside the image, a
    cleared coordinate has been visited and holds [(0, 0, 0, 0)], every
    other coordinate still holds its original pixel. *)
Record inv (P0 : gmap coord color) (W H : Z) (st : state) : Prop := {
  inv_dom : dom (st_pixels st) = bounds W H;
  inv_visited : visited st ⊆ bounds W H;
  inv_to_clear : to_clear st ⊆ visited st;
  inv_cleared : ∀ c, c ∈ to_clear st → st_pixels st !! c = Some transparent_black;
  inv_kept : ∀ c, c ∉ to_clear st → st_pixels st !! c = P0 !! c
}.

(** The invariant of the [while] loop started from seed [s] with
    reference colour [ref], when [V0] and [T0] were the two sets at its
    start and [q] is the queue. *)
Record flood_inv (P0 : gmap coord color) (W H tolerance : Z)
    (V0 T0 : gset coord) (ref : color) (s : coord)
    (q : list coord) (st : state) : Prop := {
  fi_inv : inv P0 W H st;
  fi_queue : ∀ c, c ∈ q → c ∈ bounds W H;
  fi_V0 : V0 ⊆ visited st;
  fi_T0 : T0 ⊆ to_clear st;
  fi_sound : ∀ c, c ∈ to_clear st →
    c ∈ T0 ∨ region P0 W H tolerance V0 ref s c;
  fi_prov : ∀ c, c ∈ q →
    c = s ∨ ∃ c', c' ∈ to_clear st ∧ (c' ∉ T0) ∧ adjacent c' c;
  fi_closed : ∀ c n, c ∈ to_clear st → c ∉ T0 → n ∈ neighbours W H c →
    n ∈ visited st ∨ n ∈ q;
  fi_tested : ∀ c, c ∈ visited st → c ∉ V0 → within P0 tolerance ref c →
    c ∈ to_clear st;
  fi_seed : s ∈ visited st ∨ s ∈ q
}.

(** Number of coordinates of the image not yet visited. *)
Definition unvisited (W H : Z) (V : gset coord) : nat :=
  length (filter (λ c, c ∉ V) (all_coords W H)).

(** ** analyze_img.py *)

Module Analyzer.

(** Lines 12-14: the inner loop, which collects the pixels of row [y]
    at the columns [xs]. *)
Fixpoint read_row (W H : Z) (px : gmap coord color) (y : Z) (xs : list Z)
  : result (list color) :=
  match xs with
  | [] => Ok []
  | x :: xs =>
    p ← getpixel W H px (x, y);;;
    row ← read_row W H px y xs;;;
    Ok (p :: row)
  end.

(** Lines 11-15: the loop over the rows [ys].  Each row is printed once
    it has been read in full; the result is what has been printed, a row
    number with its pixels per line, and how the loop ended. *)
Fixpoint print_rows (W H : Z) (px : gmap coord color) (ys : list Z)
  : list (Z * list color) * result unit :=
  match ys with
  | [] => ([], Ok tt)
  | y :: ys =>
    match read_row W H px y (range 5) with
    | Err e => ([], Err e)
    | Ok row =>
      let '(out, r) := print_rows W H px ys in ((y, row) :: out, r)
    end
  end.

(** Lines 18-20: the set of the colours of row 0. *)
Fixpoint row0_colors (W H : Z) (px : gmap coord color) (xs : list Z)
    (colors : gset color) : result (gset color) :=
  match xs with
  | [] => Ok colors
  | x :: xs =>
    p ← getpixel W H px (x, 0);;;
    row0_colors W H px xs ({[p]} ∪ colors)
  end.

(** Lines 7-22: [analyze], from the decoded image to what it prints: the
    rows of the top-left block and then [len(colors)].  (Line 22 prints
    five members of the set in the set's own order, which the language
    leaves open; it is not part of the result here.) *)
Definition analyze (img : image) : list (Z * list color) * result nat :=
  let W := width img in
  let H := height img in
  let '(out, r) := print_rows W H (pixels img) (range 5) in
  (out,
   u ← r;;;
   colors ← row0_colors W H (pixels img) (range W) ∅;;;
   Ok (size colors)).

End Analyzer.

(** ** Further notions *)

(** The coordinate lies in the first or last column or row. *)
Definition on_edge (W H : Z) (c : coord) : Prop :=
  c.1 = 0 ∨ c.1 = W - 1 ∨ c.2 = 0 ∨ c.2 = H - 1.

(** Modelled from the spec: what PIL's [ImageDraw.ellipse], which is not
    in the repository, leaves untouched.  §4.3 step 3 has the mask 0
    outside the ellipse, and the ellipse lies in the bounding box
    [(x0, y0, x1, y1)] it is drawn from; so no pixel outside the box is
    covered. *)
Definition paints_within_box
    (draw_ellipse : Masker.box → result (coord → bool)) : Prop :=
  ∀ x0 y0 x1 y1 covers c,
    draw_ellipse (x0, y0, x1, y1) = Ok covers → covers c = true →
    (x0 <= inject_Z c.1 ∧ inject_Z c.1 <= x1 ∧
     y0 <= inject_Z c.2 ∧ inject_Z c.2 <= y1)%Q.

(** One colour everywhere. *)
Definition uniform (im : image) (p0 : color) : Prop :=
  ∀ c p, pixels im !! c = Some p → p = p0.

(** ** The box of line 19 *)

(** The box [(x0, y0, x1, y1)] has its left edge at or left of its right
    edge and its upper edge at or above its lower edge. *)
Definition proper_box (bx : Masker.box) : Prop :=
  let '(x0, y0, x1, y1) := bx in (x0 <= x1 ∧ y0 <= y1)%Q.

(** Both pairs of edges are swapped: the right edge lies left of the left
    edge and the lower edge above the upper edge. *)
Definition inverted_box (bx : Masker.box) : Prop :=
  let '(x0, y0, x1, y1) := bx in (x1 < x0 ∧ y1 < y0)%Q.

(** The primitive accepts every proper box. *)
Definition accepts_proper
    (draw_ellipse : Masker.box → result (coord → bool)) : Prop :=
  ∀ bx, proper_box bx → ∃ covers, draw_ellipse bx = Ok covers.

(** The primitive raises [ValueError] on every box that is not proper,
    as [Masker.strict_ellipse] does. *)
Definition rejects_improper
    (draw_ellipse : Masker.box → result (coord → bool)) : Prop :=
  ∀ bx, ¬ proper_box bx → draw_ellipse bx = Err ValueError.

(** §7 as worded: both cores return on every well-formed image, for
    every hint list and tolerance; [draw_ellipse] stands for the drawing
    primitive [circular_crop] calls. *)
Definition cores_are_total
    (draw_ellipse : Masker.box → result (coord → bool)) : Prop :=
  (∀ img bg_hints tolerance, wf_image img →
     ∃ img' n, clean_image img bg_hints tolerance = Ok (img', n)) ∧
  (∀ img, wf_image img →
     ∃ out, Masker.circular_crop draw_ellipse img = Ok out).

(** ** Positions of the border loop *)

(** The loop of line 26 takes [s] as a seed at the position of the border
    list that has [pre] before it and [post] after it: the iterations
    over [pre] leave the state [st], in which [s] passes the tests of
    lines 27 and 32 with the pixel [ref]. *)
Definition seeded_at (im : image) (bg_hints : list (list Z)) (tolerance : Z)
    (pre : list coord) (s : coord) (post : list coord)
    (st : state) (ref : color) : Prop :=
  border_pixels (width im) (height im) = pre ++ s :: post ∧
  seed_loop (width im) (height im) bg_hints tolerance pre (init im) = Ok st ∧
  seeds_at (width im) (height im) st s ref.

(** ** Coordinates *)

Lemma elem_of_range (n x : Z) : x ∈ range n ↔ 0 ≤ x < n.
Proof.
  unfold range. rewrite list_elem_of_fmap. split.
  - intros (k & -> & Hk). apply elem_of_seq in Hk. lia.
  - intros Hx. exists (Z.to_nat x). split; [lia|]. apply elem_of_seq. lia.
Qed.

Lemma elem_of_all_coords (W H : Z) (c : coord) :
  c ∈ all_coords W H ↔ 0 ≤ c.1 < W ∧ 0 ≤ c.2 < H.
Proof.
  unfold all_coords. rewrite list_elem_of_bind. split.
  - intros (x & Hc & Hx). apply list_elem_of_bind in Hc as (y & Hc & Hy).
    apply list_elem_of_singleton in Hc as ->. simpl.
    apply elem_of_range in Hx. apply elem_of_range in Hy. done.
  - intros [Hx Hy]. exists c.1. split; [|by apply elem_of_range].
    apply list_elem_of_bind. exists c.2. split; [|by apply elem_of_range].
    destruct c. simpl. apply list_elem_of_singleton. done.
Qed.

Lemma elem_of_bounds (W H : Z) (c : coord) :
  c ∈ bounds W H ↔ 0 ≤ c.1 < W ∧ 0 ≤ c.2 < H.
Proof. unfold bounds. rewrite elem_of_list_to_set. apply elem_of_all_coords. Qed.

Lemma length_range (n : Z) : length (range n) = Z.to_nat n.
Proof. unfold range. by rewrite length_fmap, length_seq. Qed.

Lemma length_all_coords (W H : Z) :
  length (all_coords W H) = (Z.to_nat W * Z.to_nat H)%nat.
Proof.
  unfold all_coords. rewrite <- (length_range W).
  induction (range W) as [|x l IH]; [done|].
  simpl. rewrite length_app. f_equal; [|exact IH].
  rewrite <- (length_range H). clear.
  induction (range H) as [|y l' IH]; [done|]. simpl. f_equal. exact IH.
Qed.

Lemma elem_of_neighbours (W H : Z) (c c' : coord) :
  c' ∈ neighbours W H c ↔ adjacent c c' ∧ c' ∈ bounds W H.
Proof.
  unfold neighbours, adjacent. destruct c as [x y].
  rewrite list_elem_of_filter, elem_of_bounds. simpl.
  rewrite !Z.add_0_r. replace (x + -1) with (x - 1) by lia.
  replace (y + -1) with (y - 1) by lia. tauto.
Qed.

Lemma length_neighbours (W H : Z) (c : coord) :
  (length (neighbours W H c) ≤ 4)%nat.
Proof.
  unfold neighbours. destruct c as [x y].
  etrans; [apply length_filter|]. done.
Qed.

Lemma elem_of_border_pixels (W H : Z) (c : coord) :
  1 ≤ W → 1 ≤ H → c ∈ border_pixels W H → c ∈ bounds W H.
Proof.
  intros HW HH. unfold border_pixels. rewrite elem_of_app, elem_of_bounds.
  intros [Hc|Hc]; apply list_elem_of_bind in Hc as (k & Hc & Hk);
    apply elem_of_range in Hk;
    (apply elem_of_cons in Hc as [->|Hc];
     [|apply list_elem_of_singleton in Hc as ->]); simpl; lia.
Qed.

Lemma elem_of_border_pixels_iff (W H : Z) (c : coord) :
  1 ≤ W → 1 ≤ H →
  c ∈ border_pixels W H ↔ c ∈ bounds W H ∧ on_edge W H c.
Proof.
  intros HW HH. unfold border_pixels, on_edge.
  rewrite elem_of_app, elem_of_bounds, !list_elem_of_bind.
  destruct c as [x y]. simpl. split.
  - intros [(k & Hc & Hk)|(k & Hc & Hk)]; apply elem_of_range in Hk;
      (apply elem_of_cons in Hc as [Hc|Hc];
       [|apply list_elem_of_singleton in Hc]); injection Hc as -> ->; lia.
  - intros [[Hx Hy] [-> | [-> | [-> | ->]]]].
    + right. exists y. split; [|by apply elem_of_range]. by left.
    + right. exists y. split; [|by apply elem_of_range].
      right. by apply list_elem_of_singleton.
    + left. exists x. split; [|by apply elem_of_range]. by left.
    + left. exists x. split; [|by apply elem_of_range].
      right. by apply list_elem_of_singleton.
Qed.

Lemma wf_image_check (im : image) : wf_imageb im = true → wf_image im.
Proof.
  unfold wf_imageb, wf_image. intros Hb.
  apply andb_prop in Hb as [Hb Hbytes]. apply andb_prop in Hb as [Hb Hdom].
  apply andb_prop in Hb as [HW HH].
  apply bool_decide_eq_true in Hdom. apply bool_decide_eq_true in Hbytes.
  split; [lia|]. split; [lia|done].
Qed.

Lemma wf_row3 : wf_image row3.
Proof. apply wf_image_check. vm_compute. reflexivity. Qed.

Lemma wf_pair2 : wf_image pair2.
Proof. apply wf_image_check. vm_compute. reflexivity. Qed.

Lemma wf_dot1 : wf_image dot1.
Proof. apply wf_image_check. vm_compute. reflexivity. Qed.

Lemma wf_green_centre5 : wf_image green_centre5.
Proof. apply wf_image_check. vm_compute. reflexivity. Qed.


(** ** The [while] loop *)

Lemma bind_ok {A B} (r : result A) (k : A → result B) (b : B) :
  bind r k = Ok b ↔ ∃ a, r = Ok a ∧ k a = Ok b.
Proof.
  destruct r as [a|e]; simpl; split.
  - eauto.
  - by intros (a' & [= ->] & ?).
  - done.
  - by intros (a' & [=] & ?).
Qed.

Lemma pixel_index_in (W H : Z) (c : coord) :
  c ∈ bounds W H → pixel_index W H c = Ok c.
Proof.
  intros Hc. apply elem_of_bounds in Hc. unfold pixel_index.
  destruct c as [x y]. simpl in *.
  destruct (Z.ltb_spec x 0); [lia|]. destruct (Z.ltb_spec y 0); [lia|].
  destruct (Z.leb_spec 0 x); [|lia]. destruct (Z.ltb_spec x W); [|lia].
  destruct (Z.leb_spec 0 y); [|lia]. destruct (Z.ltb_spec y H); [|lia].
  done.
Qed.

Lemma getpixel_ok (W H : Z) (px : gmap coord color) (c : coord) (p : color) :
  c ∈ bounds W H → getpixel W H px c = Ok p ↔ px !! c = Some p.
Proof.
  intros Hc. unfold getpixel. rewrite pixel_index_in by done. simpl.
  destruct (px !! c); split; congruence.
Qed.

Lemma putpixel_in (W H : Z) (px : gmap coord color) (c : coord) (p v : color) :
  c ∈ bounds W H → px !! c = Some p →
  putpixel W H px c v = Ok (<[c := v]> px).
Proof.
  intros Hc Hp. unfold putpixel. rewrite pixel_index_in by done. simpl.
  by rewrite Hp.
Qed.

Lemma unvisited_le (W H : Z) (V : gset coord) :
  (unvisited W H V ≤ Z.to_nat W * Z.to_nat H)%nat.
Proof. unfold unvisited. rewrite <- length_all_coords. apply length_filter. Qed.

Lemma filter_visit_lt (l : list coord) (V : gset coord) (c : coord) :
  c ∈ l → c ∉ V →
  (length (filter (λ c', c' ∉ {[c]} ∪ V) l) < length (filter (λ c', c' ∉ V) l))%nat.
Proof.
  assert (Hle : ∀ l', (length (filter (λ c', c' ∉ {[c]} ∪ V) l')
                       ≤ length (filter (λ c', c' ∉ V) l'))%nat).
  { induction l' as [|a l' IH]; [done|].
    rewrite !filter_cons. repeat case_decide; simpl; try lia. set_solver. }
  intros Hc HV. induction l as [|a l IH]; [by apply elem_of_nil in Hc|].
  rewrite !filter_cons. apply elem_of_cons in Hc as [<-|Hc].
  - specialize (Hle l). repeat case_decide; simpl; try lia; set_solver.
  - specialize (IH Hc). repeat case_decide; simpl; try lia. set_solver.
Qed.

Lemma unvisited_visit (W H : Z) (V : gset coord) (c : coord) :
  c ∈ bounds W H → c ∉ V →
  (unvisited W H ({[c]} ∪ V) < unvisited W H V)%nat.
Proof.
  intros Hc HV. apply filter_visit_lt; [|done].
  by apply elem_of_list_to_set in Hc.
Qed.

Section Flood.

Variables (P0 : gmap coord color) (W H tolerance : Z).
Variables (V0 T0 : gset coord) (ref : color) (s : coord).
Hypothesis HT0 : T0 ⊆ V0.

Lemma region_not_visited (c : coord) :
  region P0 W H tolerance V0 ref s c → c ∉ V0.
Proof. by destruct 1. Qed.

(** One iteration never fails and keeps the invariant. *)
Lemma flood_iter_inv (c : coord) (q : list coord) (st : state) :
  flood_inv P0 W H tolerance V0 T0 ref s (c :: q) st →
  ∃ q' st',
    flood_iter W H tolerance ref c q st = Ok (q', st') ∧
    flood_inv P0 W H tolerance V0 T0 ref s q' st' ∧
    (4 * unvisited W H (visited st') + length q'
     < 4 * unvisited W H (visited st) + length (c :: q))%nat.
Proof.
  intros [[Hdom HV HT Hclr Hkept] Hq HV0 HT0' Hsound Hprov Hclosed Htested Hseed].
  unfold flood_iter. destruct (decide (c ∈ visited st)) as [Hc|Hc].
  { exists q, st. split; [done|]. split; [|simpl; lia].
    split; [by split| |done|done|done| | |done|].
    - intros c' Hc'. apply Hq. by right.
    - intros c' Hc'. apply Hprov. by right.
    - intros c' n H1 H2 H3.
      destruct (Hclosed c' n H1 H2 H3) as [?|Hn]; [by left|].
      apply elem_of_cons in Hn as [->|?]; [by left|by right].
    - destruct Hseed as [?|Hs]; [by left|].
      apply elem_of_cons in Hs as [->|?]; [by left|by right]. }
  assert (Hcb : c ∈ bounds W H) by (apply Hq; by left).
  assert (HcT : c ∉ to_clear st) by set_solver.
  assert (HcV0 : c ∉ V0) by set_solver.
  assert (HcT0 : c ∉ T0) by set_solver.
  assert (Hp : is_Some (st_pixels st !! c)).
  { apply elem_of_dom. by rewrite Hdom. }
  destruct Hp as [p Hp]. simpl.
  rewrite (proj2 (getpixel_ok W H _ c p Hcb) Hp). simpl.
  assert (Hp0 : P0 !! c = Some p) by (by rewrite <- Hkept).
  destruct (distance_le (channels p) (channels ref) tolerance) eqn:Hd.
  - rewrite (putpixel_in W H _ c p _ Hcb Hp). simpl.
    eexists _, _. split; [done|].
    assert (Hreg : region P0 W H tolerance V0 ref s c).
    { destruct (Hprov c) as [->|(c' & Hc'T & Hc'T0 & Hadj)]; [by left| |].
      - apply region_seed; [done..|]. by exists p.
      - destruct (Hsound c' Hc'T) as [?|Hr]; [done|].
        eapply region_step; [done..|]. by exists p. }
    split; [split; [split|..]|]; simpl.
    + rewrite dom_insert_L, Hdom. clear -Hcb. set_solver.
    + set_solver.
    + set_solver.
    + intros c' Hc'. destruct (decide (c' = c)) as [->|Hne].
      * by rewrite lookup_insert_eq.
      * rewrite lookup_insert_ne by done. apply Hclr. set_solver.
    + intros c' Hc'. rewrite lookup_insert_ne by set_solver.
      apply Hkept. set_solver.
    + intros c' Hc'. apply elem_of_app in Hc' as [Hc'|Hc'].
      * apply Hq. by right.
      * by apply elem_of_neighbours in Hc' as [_ ?].
    + set_solver.
    + set_solver.
    + intros c' Hc'. apply elem_of_union in Hc' as [Hc'|Hc'].
      * apply elem_of_singleton in Hc' as ->. by right.
      * by apply Hsound.
    + intros c' Hc'. apply elem_of_app in Hc' as [Hc'|Hc'].
      * destruct (Hprov c') as [?|(c2 & ? & ? & ?)]; [by right|by left|].
        right. exists c2. set_solver.
      * right. exists c. apply elem_of_neighbours in Hc' as [? _]. set_solver.
    + intros c' n Hc' Hc'T0 Hn. apply elem_of_union in Hc' as [Hc'|Hc'].
      * apply elem_of_singleton in Hc' as ->. right.
        apply elem_of_app. by right.
      * destruct (Hclosed c' n Hc' Hc'T0 Hn) as [?|Hn']; [left; set_solver|].
        apply elem_of_cons in Hn' as [->|?]; [left; set_solver|].
        right. apply elem_of_app. by left.
    + intros c' Hc' Hc'V0 Hw. apply elem_of_union in Hc' as [Hc'|Hc'].
      * set_solver.
      * apply elem_of_union. right. by apply Htested.
    + destruct Hseed as [?|Hs]; [left; set_solver|].
      apply elem_of_cons in Hs as [->|?]; [left; set_solver|].
      right. apply elem_of_app. by left.
    + pose proof (unvisited_visit W H (visited st) c Hcb Hc).
      pose proof (length_neighbours W H c).
      rewrite length_app. simpl. lia.
  - eexists _, _. split; [done|].
    split; [split; [split|..]|]; simpl; try done.
    + set_solver.
    + set_solver.
    + intros c' Hc'. apply Hq. by right.
    + set_solver.
    + intros c' Hc'. apply Hprov. by right.
    + intros c' n Hc' Hc'T0 Hn.
      destruct (Hclosed c' n Hc' Hc'T0 Hn) as [?|Hn']; [left; set_solver|].
      apply elem_of_cons in Hn' as [->|?]; [left; set_solver|by right].
    + intros c' Hc' Hc'V0 (p' & Hp' & Hd'). apply elem_of_union in Hc' as [Hc'|Hc'].
      * apply elem_of_singleton in Hc' as ->. congruence.
      * apply Htested; [done..|]. by exists p'.
    + destruct Hseed as [?|Hs]; [left; set_solver|].
      apply elem_of_cons in Hs as [->|?]; [left; set_solver|by right].
    + pose proof (unvisited_visit W H (visited st) c Hcb Hc). lia.
Qed.

(** With fuel for its measure the loop empties the queue. *)
Lemma flood_total (fuel : nat) (q : list coord) (st : state) :
  flood_inv P0 W H tolerance V0 T0 ref s q st →
  (4 * unvisited W H (visited st) + length q ≤ fuel)%nat →
  ∃ st', flood fuel W H tolerance ref q st = Ok st' ∧
         flood_inv P0 W H tolerance V0 T0 ref s [] st'.
Proof.
  revert q st. induction fuel as [|fuel IH]; intros q st Hinv Hfuel.
  - destruct q; simpl in *; [by exists st; split|lia].
  - destruct q as [|c q]; [by exists st; split|].
    destruct (flood_iter_inv c q st Hinv) as (q' & st' & Hit & Hinv' & Hlt).
    simpl. rewrite Hit. simpl. apply IH; [done|].
    rewrite length_cons in Hlt, Hfuel. lia.
Qed.

End Flood.

(** ** The loop over the border *)

Section SeedLoop.

Variables (P0 : gmap coord color) (W H tolerance : Z).
Variable bg_hints : list (list Z).
Hypothesis HW : 1 ≤ W.
Hypothesis HH : 1 ≤ H.

Lemma flood_fuel_enough (V : gset coord) :
  (4 * unvisited W H V + 1 ≤ flood_fuel W H)%nat.
Proof.
  pose proof (unvisited_le W H V) as Hle. unfold flood_fuel.
  replace (4 * W * H + 1) with (Z.of_nat (4 * (Z.to_nat W * Z.to_nat H) + 1)).
  - rewrite Nat2Z.id. lia.
  - rewrite Nat2Z.inj_add, Nat2Z.inj_mul, Nat2Z.inj_mul, !Z2Nat.id by lia. lia.
Qed.

Lemma region_cleared (V0 T0 : gset coord) (ref : color) (s : coord)
    (st : state) (c : coord) :
  T0 ⊆ V0 →
  flood_inv P0 W H tolerance V0 T0 ref s [] st →
  region P0 W H tolerance V0 ref s c → c ∈ to_clear st ∧ c ∉ T0.
Proof.
  intros HT0 Hfi. induction 1 as [Hs HsV Hw|c c' Hr [IH IH'] Hadj Hc' Hc'V Hw].
  - split; [|set_solver]. apply (fi_tested _ _ _ _ _ _ _ _ _ _ Hfi); [|done..].
    destruct (fi_seed _ _ _ _ _ _ _ _ _ _ Hfi) as [?|Hin]; [done|].
    by apply elem_of_nil in Hin.
  - split; [|set_solver]. apply (fi_tested _ _ _ _ _ _ _ _ _ _ Hfi); [|done..].
    destruct (fi_closed _ _ _ _ _ _ _ _ _ _ Hfi c c' IH IH') as [?|Hin]; [|done|].
    + by apply elem_of_neighbours.
    + by apply elem_of_nil in Hin.
Qed.

Lemma seed_step_spec (b : coord) (st : state) :
  inv P0 W H st → b ∈ bounds W H →
  ∃ st', seed_step W H bg_hints tolerance b st = Ok st' ∧
    inv P0 W H st' ∧
    visited st ⊆ visited st' ∧
    (∀ c, c ∈ to_clear st' ↔
          c ∈ to_clear st ∨
          ∃ ref, seeds_at W H st b ref ∧
                 region P0 W H tolerance (visited st) ref b c) ∧
    (∀ ref, seeds_at W H st b ref → b ∈ visited st').
Proof.
  intros Hinv Hb. unfold seed_step.
  destruct (decide (b ∈ visited st)) as [Hv|Hv].
  { exists st. split; [done|]. split; [done|]. split; [done|]. split.
    - intros c. split; [by left|]. by intros [?|(ref & (? & _) & _)].
    - by intros ref (? & _). }
  assert (Hp : is_Some (st_pixels st !! b)).
  { apply elem_of_dom. by rewrite (inv_dom _ _ _ _ Hinv). }
  destruct Hp as [p Hp]. rewrite (proj2 (getpixel_ok W H _ b p Hb) Hp). simpl.
  destruct (alpha p =? 0) eqn:Ha.
  { apply Z.eqb_eq in Ha.
    exists st. split; [done|]. split; [done|]. split; [done|]. split.
    - intros c. split; [by left|].
      intros [?|(ref & (_ & Hg & Hne) & _)]; [done|].
      apply getpixel_ok in Hg; [|done]. congruence.
    - intros ref (_ & Hg & Hne). apply getpixel_ok in Hg; [|done]. congruence. }
  apply Z.eqb_neq in Ha.
  destruct (flood_total P0 W H tolerance (visited st) (to_clear st) p b
              (inv_to_clear _ _ _ _ Hinv) (flood_fuel W H) [b] st)
    as (st' & Hfl & Hfi).
  { split; try done.
    - intros c Hc. by apply list_elem_of_singleton in Hc as ->.
    - intros c ?. by left.
    - intros c Hc. left. by apply list_elem_of_singleton in Hc.
    - right. by left. }
  { simpl. pose proof (flood_fuel_enough (visited st)). lia. }
  exists st'. split; [done|].
  pose proof (inv_to_clear _ _ _ _ Hinv) as HTV.
  split; [apply Hfi|]. split; [apply Hfi|]. split.
  - intros c. split.
    + intros Hc. destruct (fi_sound _ _ _ _ _ _ _ _ _ _ Hfi c Hc) as [?|Hr];
        [by left|right].
      exists p. repeat split; try done. by apply getpixel_ok.
    + intros [Hc|(ref & (_ & Hg & _) & Hr)].
      * by apply (fi_T0 _ _ _ _ _ _ _ _ _ _ Hfi).
      * apply getpixel_ok in Hg; [|done]. assert (ref = p) as -> by congruence.
        by eapply region_cleared.
  - intros _ _. destruct (fi_seed _ _ _ _ _ _ _ _ _ _ Hfi) as [?|Hin]; [done|].
    by apply elem_of_nil in Hin.
Qed.

Lemma selected_from_cons (b : coord) (bs : list coord) (st0 st1 : state)
    (s : coord) (ref : color) (V0 : gset coord) :
  seed_step W H bg_hints tolerance b st0 = Ok st1 →
  selected_from W H bg_hints tolerance (b :: bs) st0 s ref V0 ↔
  (s = b ∧ seeds_at W H st0 b ref ∧ V0 = visited st0) ∨
  selected_from W H bg_hints tolerance bs st1 s ref V0.
Proof.
  intros Hstep. unfold selected_from, seeds_at. split.
  - intros (pre & post & st & Heq & Hrun & Hs & Hg & Ha & HV).
    destruct pre as [|b' pre]; simpl in *.
    + injection Heq as <- <-. injection Hrun as <-. by left.
    + injection Heq as <- ->. rewrite Hstep in Hrun. simpl in Hrun.
      right. by exists pre, post, st.
  - intros [(-> & (Hs & Hg & Ha) & ->)|(pre & post & st & -> & Hrun & Hrest)].
    + by exists [], bs, st0.
    + exists (b :: pre), post, st. simpl. rewrite Hstep. by simpl.
Qed.

Lemma seed_loop_spec (bs : list coord) (st0 : state) :
  inv P0 W H st0 → (∀ b, b ∈ bs → b ∈ bounds W H) →
  ∃ st', seed_loop W H bg_hints tolerance bs st0 = Ok st' ∧
    inv P0 W H st' ∧
    visited st0 ⊆ visited st' ∧
    ∀ c, c ∈ to_clear st' ↔
         c ∈ to_clear st0 ∨
         ∃ s ref V0,
           selected_from W H bg_hints tolerance bs st0 s ref V0 ∧
           region P0 W H tolerance V0 ref s c.
Proof.
  revert st0. induction bs as [|b bs IH]; intros st0 Hinv Hbs.
  - exists st0. split; [done|]. split; [done|]. split; [done|].
    intros c. split; [by left|].
    intros [?|(s & ref & V0 & (pre & post & st & Heq & _) & _)]; [done|].
    by destruct pre.
  - destruct (seed_step_spec b st0 Hinv) as (st1 & Hstep & Hinv1 & HV1 & HT1 & _).
    { apply Hbs. by left. }
    destruct (IH st1 Hinv1) as (st' & Hrun & Hinv' & HV' & HT').
    { intros b' Hb'. apply Hbs. by right. }
    exists st'. simpl. rewrite Hstep. simpl. split; [done|]. split; [done|].
    split; [set_solver|]. intros c. rewrite HT', HT1. split.
    + intros [[Hc|(ref & Hseed & Hr)]|(s & ref & V0 & Hsel & Hr)].
      * by left.
      * right. exists b, ref, (visited st0). split; [|done].
        apply (selected_from_cons b bs st0 st1); [done|]. by left.
      * right. exists s, ref, V0. split; [|done].
        apply (selected_from_cons b bs st0 st1); [done|]. by right.
    + intros [Hc|(s & ref & V0 & Hsel & Hr)]; [left; by left|].
      apply (selected_from_cons b bs st0 st1) in Hsel
        as [(-> & Hseed & ->)|Hsel]; [| |done].
      * left. right. by exists ref.
      * right. by exists s, ref, V0.
Qed.

End SeedLoop.

(** ** [clean_image] as a whole *)

Lemma init_inv (im : image) :
  wf_image im → inv (pixels im) (width im) (height im) (init im).
Proof. intros (_ & _ & Hdom & _). by split. Qed.

Lemma region_mono (px : gmap coord color) (W H tolerance : Z)
    (V0 V1 : gset coord) (ref : color) (s c : coord) :
  V1 ⊆ V0 →
  region px W H tolerance V0 ref s c → region px W H tolerance V1 ref s c.
Proof.
  intros Hsub. induction 1.
  - apply region_seed; [done| |done]. set_solver.
  - eapply region_step; [done..| |done]. set_solver.
Qed.

(** The loop over the border never fails on a well-formed image, and
    leaves cleared exactly the regions of its seeds. *)
Lemma clean_state_spec (im : image) (bg_hints : list (list Z)) (tolerance : Z) :
  wf_image im →
  ∃ st', clean_state im bg_hints tolerance = Ok st' ∧
    inv (pixels im) (width im) (height im) st' ∧
    ∀ c, c ∈ to_clear st' ↔
         ∃ s ref V0, selected im bg_hints tolerance s ref V0 ∧
           region (pixels im) (width im) (height im) tolerance V0 ref s c.
Proof.
  intros Hwf. pose proof Hwf as (HW & HH & Hdom & _).
  destruct (seed_loop_spec (pixels im) (width im) (height im) tolerance
              bg_hints HW HH (border_pixels (width im) (height im)) (init im))
    as (st' & Hrun & Hinv & _ & HT).
  - by apply init_inv.
  - intros b. by apply elem_of_border_pixels.
  - exists st'. split; [done|]. split; [done|]. intros c. rewrite HT.
    split; [|by right]. intros [Hc|?]; [|done]. by apply elem_of_empty in Hc.
Qed.

(** A seed is a border pixel, not transparent, taken with the colour it
    had when the image was loaded. *)
Lemma selected_original (im : image) (bg_hints : list (list Z)) (tolerance : Z)
    (s : coord) (ref : color) (V0 : gset coord) :
  wf_image im → selected im bg_hints tolerance s ref V0 →
  s ∈ border_pixels (width im) (height im) ∧
  pixels im !! s = Some ref ∧ alpha ref ≠ 0 ∧ s ∉ V0.
Proof.
  intros Hwf (pre & post & st & Heq & Hrun & Hs & Hg & Ha & ->).
  pose proof Hwf as (HW & HH & Hdom & _).
  assert (Hsb : s ∈ border_pixels (width im) (height im)).
  { rewrite Heq. apply elem_of_app. right. by left. }
  split; [done|]. split; [|done].
  apply elem_of_border_pixels in Hsb; [|done..].
  destruct (seed_loop_spec (pixels im) (width im) (height im) tolerance
              bg_hints HW HH pre (init im)) as (st1 & Hrun1 & Hinv & _).
  - by apply init_inv.
  - intros b Hb. apply elem_of_border_pixels; [done..|].
    rewrite Heq. apply elem_of_app. by left.
  - assert (st1 = st) as -> by congruence.
    apply getpixel_ok in Hg; [|done]. rewrite <- Hg. symmetry.
    apply (inv_kept _ _ _ _ Hinv).
    pose proof (inv_to_clear _ _ _ _ Hinv). set_solver.
Qed.

(** C1 (amended).  On a well-formed image [clean_image] returns, and the
    pixels it clears are exactly those reached from some seed through
    4-adjacent pixels that are within tolerance of that seed's original
    colour and were not yet visited when that seed's traversal began.
    Every cleared pixel is therefore reachable in the sense of the spec;
    every pixel not cleared keeps its four channels. *)
Theorem clean_clears_unvisited_region
    (im : image) (bg_hints : list (list Z)) (tolerance : Z) :
  wf_image im →
  ∃ st', clean_state im bg_hints tolerance = Ok st' ∧
    ∀ c,
      (c ∈ to_clear st' ↔
       ∃ s ref V0, selected im bg_hints tolerance s ref V0 ∧
         pixels im !! s = Some ref ∧
         region (pixels im) (width im) (height im) tolerance V0 ref s c) ∧
      (c ∈ to_clear st' →
       ∃ s ref V0, selected im bg_hints tolerance s ref V0 ∧
         region (pixels im) (width im) (height im) tolerance ∅ ref s c) ∧
      (c ∈ to_clear st' → st_pixels st' !! c = Some transparent_black) ∧
      (c ∉ to_clear st' → st_pixels st' !! c = pixels im !! c).
Proof.
  intros Hwf.
  destruct (clean_state_spec im bg_hints tolerance Hwf) as (st' & Hrun & Hinv & HT).
  exists st'. split; [done|]. intros c. split; [|split; [|split]].
  - rewrite HT. split.
    + intros (s & ref & V0 & Hsel & Hr). exists s, ref, V0.
      split; [done|]. split; [|done].
      by destruct (selected_original _ _ _ _ _ _ Hwf Hsel) as (_ & ? & _).
    + intros (s & ref & V0 & Hsel & _ & Hr). by exists s, ref, V0.
  - intros Hc. apply HT in Hc as (s & ref & V0 & Hsel & Hr).
    exists s, ref, V0. split; [done|]. eapply region_mono; [|done]. set_solver.
  - apply (inv_cleared _ _ _ _ Hinv).
  - apply (inv_kept _ _ _ _ Hinv).
Qed.

Lemma clean_clears_unvisited_region_witness :
  wf_image green_centre5 ∧
  ∃ st', clean_state green_centre5 [] 10 = Ok st' ∧
    ∀ c,
      (c ∈ to_clear st' ↔
       ∃ s ref V0, selected green_centre5 [] 10 s ref V0 ∧
         pixels green_centre5 !! s = Some ref ∧
         region (pixels green_centre5) 5 5 10 V0 ref s c) ∧
      (c ∈ to_clear st' →
       ∃ s ref V0, selected green_centre5 [] 10 s ref V0 ∧
         region (pixels green_centre5) 5 5 10 ∅ ref s c) ∧
      (c ∈ to_clear st' → st_pixels st' !! c = Some transparent_black) ∧
      (c ∉ to_clear st' → st_pixels st' !! c = pixels green_centre5 !! c).
Proof.
  split; [exact wf_green_centre5|].
  exact (clean_clears_unvisited_region green_centre5 [] 10 wf_green_centre5).
Defined.

(** C1, as worded, fails on three pixels in a row (black, red, red)
    with tolerance 10: the traversal from the black seed visits the
    middle pixel and rejects it; the right-hand red pixel is then a seed,
    the middle pixel is adjacent to it and has its colour, but it is
    already in the visited set and stays as it was. *)
Lemma clears_reachable_region_fails :
  ¬ clears_reachable_region row3 [] 10.
Proof.
  intros Hclaim.
  assert (∃ st', clean_state row3 [] 10 = Ok st' ∧ (1, 0) ∉ to_clear st')
    as (st' & Hrun & Hnot).
  { eexists. split; [by vm_compute|]. by vm_compute. }
  destruct (Hclaim st' Hrun (1, 0)) as [[_ Hin] _]. apply Hnot, Hin.
  exists (2, 0), (100, 0, 0, 255).
  eexists. split.
  - exists [(0, 0); (0, 0); (1, 0); (1, 0)], [(2, 0); (0, 0); (2, 0)].
    eexists. split; [by vm_compute|]. split; [by vm_compute|].
    split; [by vm_compute|]. split; [by vm_compute|]. split; [done|].
    reflexivity.
  - eapply (region_step _ _ _ _ _ _ _ (2, 0) (1, 0)).
    + apply region_seed.
      * apply elem_of_bounds. simpl. lia.
      * apply not_elem_of_empty.
      * exists (100, 0, 0, 255). split; by vm_compute.
    + unfold adjacent. simpl. apply elem_of_cons. by left.
    + apply elem_of_bounds. simpl. lia.
    + apply not_elem_of_empty.
    + exists (100, 0, 0, 255). split; by vm_compute.
Qed.

(** The scenarios of the spec's §8. *)

Example scenario_A :
  match clean_image uniform10 [] 10 with
  | Ok (im', n) =>
    n = 100%nat ∧
    length (filter (λ c, pixels im' !! c = Some transparent_black)
                   (all_coords 10 10)) = 100%nat
  | Err _ => False
  end.
Proof. vm_compute. by split. Qed.

Example scenario_B :
  ∃ im', clean_image green_centre5 [] 10 = Ok (im', 24%nat) ∧
         pixels im' !! (2, 2) = Some (0, 255, 0, 255).
Proof. eexists. split; by vm_compute. Qed.

(** ** Seeds *)

Lemma sum_sq_refl (l : list Z) : sum_sq l l = 0.
Proof. induction l as [|a l IH]; simpl; [done|]. rewrite IH. lia. Qed.

Lemma distance_le_refl (l : list Z) (tolerance : Z) :
  0 ≤ tolerance → distance_le l l tolerance = true.
Proof.
  intros Ht. unfold distance_le, get_distance_sq. rewrite sum_sq_refl.
  apply andb_true_intro. split; [lia|]. apply Z.leb_le. nia.
Qed.

(** The hints do not enter the body of the border loop: line 45
    overwrites what the hint loop computed. *)
Lemma seed_step_hints (W H tolerance : Z) (h1 h2 : list (list Z))
    (b : coord) (st : state) :
  seed_step W H h1 tolerance b st = seed_step W H h2 tolerance b st.
Proof. reflexivity. Qed.

(** The loop body at a border pixel, in any state the loop can be in: it
    does nothing when the pixel is already visited or its alpha is 0;
    otherwise it runs the traversal from that pixel with the pixel's own
    colour as reference, whatever the hints are, and the pixel ends up
    visited and, the tolerance not being negative, cleared. *)
Lemma seed_step_border
    (P0 : gmap coord color) (W H tolerance : Z) (bg_hints : list (list Z))
    (b : coord) (st : state) :
  1 ≤ W → 1 ≤ H → inv P0 W H st → b ∈ border_pixels W H →
  ∃ st', seed_step W H bg_hints tolerance b st = Ok st' ∧
    (b ∈ visited st → st' = st) ∧
    (alpha <$> st_pixels st !! b = Some 0 → st' = st) ∧
    ∀ p, b ∉ visited st → st_pixels st !! b = Some p → alpha p ≠ 0 →
      (∀ hints', seed_step W H hints' tolerance b st
                 = flood (flood_fuel W H) W H tolerance p [b] st) ∧
      b ∈ visited st' ∧
      (0 ≤ tolerance →
       b ∈ to_clear st' ∧ st_pixels st' !! b = Some transparent_black).
Proof.
  intros HW HH Hinv Hb.
  assert (Hbb : b ∈ bounds W H) by (by apply elem_of_border_pixels).
  destruct (seed_step_spec P0 W H tolerance bg_hints HW HH b st Hinv Hbb)
    as (st' & Hstep & Hinv' & HV & HT & Hvis).
  exists st'. split; [done|]. split; [|split].
  - intros Hv. unfold seed_step in Hstep.
    rewrite decide_True in Hstep by done. congruence.
  - intros Ha. unfold seed_step in Hstep.
    destruct (decide (b ∈ visited st)); [congruence|].
    destruct (st_pixels st !! b) as [p|] eqn:Hp; [|done].
    rewrite (proj2 (getpixel_ok W H _ b p Hbb) Hp) in Hstep.
    simpl in *. injection Ha as Ha. rewrite Ha in Hstep. simpl in Hstep.
    congruence.
  - intros p Hv Hp Ha.
    assert (Hseed : seeds_at W H st b p).
    { split; [done|]. split; [by apply getpixel_ok|done]. }
    split; [|split].
    + intros hints'. unfold seed_step. rewrite decide_False by done.
      rewrite (proj2 (getpixel_ok W H _ b p Hbb) Hp). simpl.
      apply Z.eqb_neq in Ha. by rewrite Ha.
    + by apply (Hvis p).
    + intros Ht.
      assert (Hin : b ∈ to_clear st').
      { apply HT. right. exists p. split; [done|].
        apply region_seed; [done..|]. exists p. split.
        - rewrite <- Hp. symmetry. apply (inv_kept _ _ _ _ Hinv).
          pose proof (inv_to_clear _ _ _ _ Hinv). set_solver.
        - by apply distance_le_refl. }
      split; [done|]. by apply (inv_cleared _ _ _ _ Hinv').
Qed.

Lemma seed_loop_app (W H tolerance : Z) (bg_hints : list (list Z))
    (l1 l2 : list coord) (st : state) :
  seed_loop W H bg_hints tolerance (l1 ++ l2) st
  = (st1 ← seed_loop W H bg_hints tolerance l1 st;;;
     seed_loop W H bg_hints tolerance l2 st1).
Proof.
  revert st. induction l1 as [|b l1 IH]; intros st; [done|].
  simpl. destruct (seed_step W H bg_hints tolerance b st); simpl; [|done].
  apply IH.
Qed.

Lemma seed_loop_hints (W H tolerance : Z) (h1 h2 : list (list Z))
    (bs : list coord) (st : state) :
  seed_loop W H h1 tolerance bs st = seed_loop W H h2 tolerance bs st.
Proof.
  revert st. induction bs as [|b bs IH]; intros st; [done|].
  simpl. rewrite (seed_step_hints _ _ _ h1 h2).
  destruct (seed_step W H h2 tolerance b st); simpl; [|done]. apply IH.
Qed.

(** The three stretches of the border loop around one of its positions:
    the iterations before it, the iteration at it, and those after it,
    which end in the state [clean_state] returns. *)
Lemma border_loop_split (im : image) (bg_hints : list (list Z)) (tolerance : Z)
    (pre : list coord) (b : coord) (post : list coord) :
  wf_image im →
  border_pixels (width im) (height im) = pre ++ b :: post →
  ∃ st st1 st',
    seed_loop (width im) (height im) bg_hints tolerance pre (init im) = Ok st ∧
    seed_step (width im) (height im) bg_hints tolerance b st = Ok st1 ∧
    seed_loop (width im) (height im) bg_hints tolerance post st1 = Ok st' ∧
    clean_state im bg_hints tolerance = Ok st' ∧
    inv (pixels im) (width im) (height im) st ∧
    inv (pixels im) (width im) (height im) st1 ∧
    inv (pixels im) (width im) (height im) st' ∧
    visited st ⊆ visited st1 ∧ visited st1 ⊆ visited st' ∧
    to_clear st1 ⊆ to_clear st' ∧
    (∀ ref, seeds_at (width im) (height im) st b ref → b ∈ visited st1).
Proof.
  intros Hwf Heq. pose proof Hwf as (HW & HH & _).
  assert (Hin : ∀ c, c ∈ pre ++ b :: post →
                     c ∈ bounds (width im) (height im)).
  { intros c Hc. apply elem_of_border_pixels; [done..|]. by rewrite Heq. }
  destruct (seed_loop_spec (pixels im) (width im) (height im) tolerance
              bg_hints HW HH pre (init im)) as (st & Hrun & Hinv & _).
  { by apply init_inv. }
  { intros c Hc. apply Hin, elem_of_app. by left. }
  destruct (seed_step_spec (pixels im) (width im) (height im) tolerance
              bg_hints HW HH b st Hinv)
    as (st1 & Hstep & Hinv1 & HV1 & _ & Hvis).
  { apply Hin, elem_of_app. right. by left. }
  destruct (seed_loop_spec (pixels im) (width im) (height im) tolerance
              bg_hints HW HH post st1 Hinv1) as (st' & Hrun' & Hinv' & HV' & HT').
  { intros c Hc. apply Hin, elem_of_app. right. by right. }
  exists st, st1, st'. split; [done|]. split; [done|]. split; [done|].
  split.
  { unfold clean_state. rewrite Heq, seed_loop_app, Hrun. simpl.
    by rewrite Hstep. }
  split; [done|]. split; [done|]. split; [done|]. split; [done|].
  split; [done|]. split; [|done].
  intros c Hc. apply HT'. by left.
Qed.

(** Once the border loop has passed a position that holds [s], either
    [s] is visited or its pixel was transparent from the start. *)
Lemma passed_border_pixel (im : image) (bg_hints : list (list Z))
    (tolerance : Z) (a : list coord) (s : coord) (b : list coord) (st : state) :
  wf_image im →
  (∀ c, c ∈ a ++ s :: b → c ∈ bounds (width im) (height im)) →
  seed_loop (width im) (height im) bg_hints tolerance (a ++ s :: b) (init im)
  = Ok st →
  inv (pixels im) (width im) (height im) st ∧
  (s ∈ visited st ∨ alpha <$> pixels im !! s = Some 0).
Proof.
  intros Hwf Hin Hrun. pose proof Hwf as (HW & HH & _).
  destruct (seed_loop_spec (pixels im) (width im) (height im) tolerance
              bg_hints HW HH a (init im)) as (sta & Hruna & Hinva & _).
  { by apply init_inv. }
  { intros c Hc. apply Hin, elem_of_app. by left. }
  assert (Hsb : s ∈ bounds (width im) (height im)).
  { apply Hin, elem_of_app. right. by left. }
  destruct (seed_step_spec (pixels im) (width im) (height im) tolerance
              bg_hints HW HH s sta Hinva Hsb)
    as (sta1 & Hstep & Hinv1 & HV1 & _ & Hvis).
  destruct (seed_loop_spec (pixels im) (width im) (height im) tolerance
              bg_hints HW HH b sta1 Hinv1) as (st' & Hrunb & Hinv' & HV' & _).
  { intros c Hc. apply Hin, elem_of_app. right. by right. }
  rewrite seed_loop_app, Hruna in Hrun. simpl in Hrun.
  rewrite Hstep in Hrun. simpl in Hrun.
  assert (st' = st) as -> by congruence.
  split; [done|].
  destruct (decide (s ∈ visited sta)) as [Hv|Hv]; [left; set_solver|].
  assert (Hp : is_Some (st_pixels sta !! s)).
  { apply elem_of_dom. by rewrite (inv_dom _ _ _ _ Hinva). }
  destruct Hp as [p Hp].
  assert (Hp0 : pixels im !! s = Some p).
  { rewrite <- Hp. symmetry. apply (inv_kept _ _ _ _ Hinva).
    pose proof (inv_to_clear _ _ _ _ Hinva). set_solver. }
  destruct (decide (alpha p = 0)) as [Ha|Ha].
  - right. rewrite Hp0. simpl. by rewrite Ha.
  - left. apply HV', (Hvis p). split; [done|]. split; [|done].
    by apply getpixel_ok.
Qed.

(** C2.  A call of [clean_image] on a well-formed image returns, and its
    loop examines every border pixel: every pixel of the first or last
    column or row is in the border list, and by the end it is visited
    unless it was transparent from the start.  Take any position of the
    border list, with the border pixel [b] at it.  The loop reaches that
    position (in state [st]), performs its body there (giving [st1]) and
    runs on to the state the call returns.  If [b] is already visited,
    or its alpha is 0, the body leaves the state as it is: [b] is
    skipped.  Otherwise [b] is a seed of the call: for every hint list
    the loop arrives in the same state and the body is the traversal
    from [b] with [b]'s own, original colour as reference; [b] is
    visited from then on and, the tolerance not being negative, it is
    cleared: it holds [(0, 0, 0, 0)] in the image returned. *)
Theorem clean_seeds_every_border_pixel
    (im : image) (bg_hints : list (list Z)) (tolerance : Z) :
  wf_image im →
  ∃ st',
    clean_state im bg_hints tolerance = Ok st' ∧
    clean_image im bg_hints tolerance
    = Ok (Image (width im) (height im) (st_pixels st'), size (to_clear st')) ∧
    (∀ b, b ∈ bounds (width im) (height im) →
          on_edge (width im) (height im) b →
          b ∈ border_pixels (width im) (height im) ∧
          (b ∈ visited st' ∨ alpha <$> pixels im !! b = Some 0)) ∧
    ∀ pre b post,
      border_pixels (width im) (height im) = pre ++ b :: post →
      ∃ st st1,
        seed_loop (width im) (height im) bg_hints tolerance pre (init im)
        = Ok st ∧
        seed_step (width im) (height im) bg_hints tolerance b st = Ok st1 ∧
        seed_loop (width im) (height im) bg_hints tolerance post st1
        = Ok st' ∧
        (b ∈ visited st → st1 = st) ∧
        (alpha <$> st_pixels st !! b = Some 0 → st1 = st) ∧
        ∀ p, b ∉ visited st → st_pixels st !! b = Some p → alpha p ≠ 0 →
          selected im bg_hints tolerance b p (visited st) ∧
          pixels im !! b = Some p ∧
          (∀ hints',
             seed_loop (width im) (height im) hints' tolerance pre (init im)
             = Ok st ∧
             seed_step (width im) (height im) hints' tolerance b st
             = flood (flood_fuel (width im) (height im))
                     (width im) (height im) tolerance p [b] st) ∧
          b ∈ visited st1 ∧ b ∈ visited st' ∧
          (0 ≤ tolerance →
           b ∈ to_clear st1 ∧ b ∈ to_clear st' ∧
           st_pixels st' !! b = Some transparent_black).
Proof.
  intros Hwf. pose proof Hwf as (HW & HH & _).
  destruct (clean_state_spec im bg_hints tolerance Hwf) as (st' & Hclean & _).
  exists st'. split; [done|].
  split; [unfold clean_image; by rewrite Hclean|]. split.
  { intros b Hbb Hedge.
    assert (Hb : b ∈ border_pixels (width im) (height im))
      by (by apply elem_of_border_pixels_iff).
    split; [done|]. apply list_elem_of_split in Hb as (pre & post & Heq).
    apply (passed_border_pixel im bg_hints tolerance pre b post st' Hwf).
    - intros c Hc. apply elem_of_border_pixels; [done..|]. by rewrite Heq.
    - by rewrite <- Heq. }
  intros pre b post Heq.
  destruct (border_loop_split im bg_hints tolerance pre b post Hwf Heq)
    as (st & st1 & st2 & Hrun & Hstep & Hrun' & Hclean2 & Hinv & Hinv1 & Hinv'
        & HV1 & HV' & HT' & _).
  assert (st2 = st') as -> by congruence.
  assert (Hb : b ∈ border_pixels (width im) (height im)).
  { rewrite Heq. apply elem_of_app. right. by left. }
  assert (Hbb : b ∈ bounds (width im) (height im))
    by (by apply elem_of_border_pixels).
  destruct (seed_step_border (pixels im) (width im) (height im) tolerance
              bg_hints b st HW HH Hinv Hb)
    as (st3 & Hstep3 & Hskip & Hskip0 & Hseed).
  assert (st3 = st1) as -> by congruence.
  exists st, st1. split; [done|]. split; [done|]. split; [done|].
  split; [done|]. split; [done|].
  intros p Hv Hp Ha. destruct (Hseed p Hv Hp Ha) as (Hfl & Hvis & Hclr).
  split; [|split; [|split; [|split; [|split]]]].
  - exists pre, post, st. split; [done|]. split; [done|]. split; [done|].
    split; [by apply getpixel_ok|]. by split.
  - rewrite <- Hp. symmetry. apply (inv_kept _ _ _ _ Hinv).
    pose proof (inv_to_clear _ _ _ _ Hinv). set_solver.
  - intros hints'. split; [|apply Hfl].
    by rewrite (seed_loop_hints _ _ _ hints' bg_hints).
  - done.
  - by apply HV'.
  - intros Ht. destruct (Hclr Ht) as [Hin _].
    split; [done|]. split; [by apply HT'|].
    apply (inv_cleared _ _ _ _ Hinv'). by apply HT'.
Qed.

Lemma clean_seeds_every_border_pixel_witness :
  ∃ st',
    clean_state row3 [[55; 55; 53]] 10 = Ok st' ∧
    clean_image row3 [[55; 55; 53]] 10
    = Ok (Image (width row3) (height row3) (st_pixels st'),
          size (to_clear st')) ∧
    (∀ b, b ∈ bounds (width row3) (height row3) →
          on_edge (width row3) (height row3) b →
          b ∈ border_pixels (width row3) (height row3) ∧
          (b ∈ visited st' ∨ alpha <$> pixels row3 !! b = Some 0)) ∧
    ∀ pre b post,
      border_pixels (width row3) (height row3) = pre ++ b :: post →
      ∃ st st1,
        seed_loop (width row3) (height row3) [[55; 55; 53]] 10 pre (init row3)
        = Ok st ∧
        seed_step (width row3) (height row3) [[55; 55; 53]] 10 b st = Ok st1 ∧
        seed_loop (width row3) (height row3) [[55; 55; 53]] 10 post st1
        = Ok st' ∧
        (b ∈ visited st → st1 = st) ∧
        (alpha <$> st_pixels st !! b = Some 0 → st1 = st) ∧
        ∀ p, b ∉ visited st → st_pixels st !! b = Some p → alpha p ≠ 0 →
          selected row3 [[55; 55; 53]] 10 b p (visited st) ∧
          pixels row3 !! b = Some p ∧
          (∀ hints',
             seed_loop (width row3) (height row3) hints' 10 pre (init row3)
             = Ok st ∧
             seed_step (width row3) (height row3) hints' 10 b st
             = flood (flood_fuel (width row3) (height row3))
                     (width row3) (height row3) 10 p [b] st) ∧
          b ∈ visited st1 ∧ b ∈ visited st' ∧
          (0 ≤ 10 →
           b ∈ to_clear st1 ∧ b ∈ to_clear st' ∧
           st_pixels st' !! b = Some transparent_black).
Proof.
  exact (clean_seeds_every_border_pixel row3 [[55; 55; 53]] 10 wf_row3).
Defined.

(** C10.  [clean_image] gives the same image and the same count for any two
    hint lists. *)
Theorem clean_ignores_hints (im : image) (h1 h2 : list (list Z)) (tolerance : Z) :
  clean_image im h1 tolerance = clean_image im h2 tolerance.
Proof.
  unfold clean_image, clean_state. f_equal.
  generalize (init im). induction (border_pixels (width im) (height im))
    as [|b bs IH]; intros st; [done|].
  simpl. rewrite (seed_step_hints _ _ _ h1 h2).
  destruct (seed_step (width im) (height im) h2 tolerance b st); simpl; [|done].
  apply IH.
Qed.

(** ** The cleared count *)

Lemma newly_transparent_cleared (im : image) (st' : state) :
  wf_image im → inv (pixels im) (width im) (height im) st' →
  newly_transparent im (Image (width im) (height im) (st_pixels st'))
  = filter (λ c, alpha <$> pixels im !! c ≠ Some 0) (to_clear st').
Proof.
  intros (_ & _ & Hdom & _) Hinv. apply set_eq. intros c.
  unfold newly_transparent, went_transparent. rewrite !elem_of_filter. simpl.
  split.
  - intros [Hw Hc].
    destruct (pixels im !! c) as [p|] eqn:Hp; [|done].
    destruct (st_pixels st' !! c) as [p'|] eqn:Hp'; [|done].
    apply andb_prop in Hw as [Ha Ha'].
    apply negb_true_iff, Z.eqb_neq in Ha. apply Z.eqb_eq in Ha'.
    destruct (decide (c ∈ to_clear st')) as [Hin|Hout].
    + split; [|done]. simpl. congruence.
    + rewrite (inv_kept _ _ _ _ Hinv c Hout) in Hp'. congruence.
  - intros [Ha Hc].
    assert (Hcb : c ∈ bounds (width im) (height im)).
    { pose proof (inv_to_clear _ _ _ _ Hinv).
      pose proof (inv_visited _ _ _ _ Hinv). set_solver. }
    split; [|done].
    rewrite (inv_cleared _ _ _ _ Hinv c Hc).
    assert (Hp : is_Some (pixels im !! c)) by (apply elem_of_dom; by rewrite Hdom).
    destruct Hp as [p Hp]. rewrite Hp in *. simpl in *.
    apply andb_true_intro. split; [|done].
    apply negb_true_iff, Z.eqb_neq. congruence.
Qed.

(** C3 (amended).  The count returned is the number of coordinates that
    passed the tolerance test and were overwritten.  These are exactly
    the coordinates reached from a seed of the call through pixels within
    tolerance of that seed's original colour (and not visited before);
    each of them had an original pixel within tolerance of the original
    colour of a seed and holds [(0, 0, 0, 0)] in the image returned, and
    every other coordinate holds its original pixel.  They are the pixels
    whose alpha went from non-zero to zero together with those among them
    whose alpha was zero already, and the count is the sum of the two
    numbers.  No seed has alpha 0. *)
Theorem cleared_count_counts_overwritten
    (im : image) (bg_hints : list (list Z)) (tolerance : Z) :
  wf_image im →
  ∃ st' im',
    clean_state im bg_hints tolerance = Ok st' ∧
    clean_image im bg_hints tolerance = Ok (im', size (to_clear st')) ∧
    (∀ c, c ∈ to_clear st' ↔
          ∃ s ref V0, selected im bg_hints tolerance s ref V0 ∧
            region (pixels im) (width im) (height im) tolerance V0 ref s c) ∧
    (∀ c, c ∈ to_clear st' →
          ∃ s ref V0 p, selected im bg_hints tolerance s ref V0 ∧
            pixels im !! s = Some ref ∧ pixels im !! c = Some p ∧
            distance_le (channels p) (channels ref) tolerance = true) ∧
    (∀ c, c ∈ to_clear st' → pixels im' !! c = Some transparent_black) ∧
    (∀ c, c ∉ to_clear st' → pixels im' !! c = pixels im !! c) ∧
    (∀ c, c ∈ to_clear st' ↔
          c ∈ newly_transparent im im' ∨
          c ∈ already_transparent im (to_clear st')) ∧
    size (to_clear st')
    = (size (newly_transparent im im')
       + size (already_transparent im (to_clear st')))%nat ∧
    (∀ s ref V0, selected im bg_hints tolerance s ref V0 →
       pixels im !! s = Some ref ∧ alpha ref ≠ 0).
Proof.
  intros Hwf.
  destruct (clean_state_spec im bg_hints tolerance Hwf) as (st' & Hrun & Hinv & HT).
  exists st', (Image (width im) (height im) (st_pixels st')).
  split; [done|]. split; [unfold clean_image; by rewrite Hrun|].
  split; [done|]. split.
  { intros c Hc. apply HT in Hc as (s & ref & V0 & Hsel & Hr).
    assert (Hw : within (pixels im) tolerance ref c) by (by destruct Hr).
    destruct Hw as (p & Hp & Hd).
    destruct (selected_original _ _ _ _ _ _ Hwf Hsel) as (_ & Hs & _).
    by exists s, ref, V0, p. }
  split; [apply (inv_cleared _ _ _ _ Hinv)|].
  split; [apply (inv_kept _ _ _ _ Hinv)|].
  rewrite (newly_transparent_cleared im st' Hwf Hinv). unfold already_transparent.
  assert (Hsplit : to_clear st'
    = filter (λ c, alpha <$> pixels im !! c ≠ Some 0) (to_clear st')
      ∪ filter (λ c, alpha <$> pixels im !! c = Some 0) (to_clear st')).
  { apply set_eq. intros c. rewrite elem_of_union, !elem_of_filter.
    destruct (decide (alpha <$> pixels im !! c = Some 0)); tauto. }
  split; [|split].
  - intros c. rewrite Hsplit at 1. apply elem_of_union.
  - rewrite Hsplit at 1. apply size_union.
    intros c. rewrite !elem_of_filter. tauto.
  - intros s ref V0 Hsel.
    by destruct (selected_original _ _ _ _ _ _ Hwf Hsel) as (_ & ? & ? & _).
Qed.

Lemma cleared_count_counts_overwritten_witness :
  ∃ st' im',
    clean_state pair2 [] 0 = Ok st' ∧
    clean_image pair2 [] 0 = Ok (im', size (to_clear st')) ∧
    (∀ c, c ∈ to_clear st' ↔
          ∃ s ref V0, selected pair2 [] 0 s ref V0 ∧
            region (pixels pair2) (width pair2) (height pair2) 0 V0 ref s c) ∧
    (∀ c, c ∈ to_clear st' →
          ∃ s ref V0 p, selected pair2 [] 0 s ref V0 ∧
            pixels pair2 !! s = Some ref ∧ pixels pair2 !! c = Some p ∧
            distance_le (channels p) (channels ref) 0 = true) ∧
    (∀ c, c ∈ to_clear st' → pixels im' !! c = Some transparent_black) ∧
    (∀ c, c ∉ to_clear st' → pixels im' !! c = pixels pair2 !! c) ∧
    (∀ c, c ∈ to_clear st' ↔
          c ∈ newly_transparent pair2 im' ∨
          c ∈ already_transparent pair2 (to_clear st')) ∧
    size (to_clear st')
    = (size (newly_transparent pair2 im')
       + size (already_transparent pair2 (to_clear st')))%nat ∧
    (∀ s ref V0, selected pair2 [] 0 s ref V0 →
       pixels pair2 !! s = Some ref ∧ alpha ref ≠ 0).
Proof. exact (cleared_count_counts_overwritten pair2 [] 0 wf_pair2). Defined.

(** C3, as worded, fails on two grey pixels in a row of which the second
    is already transparent, with tolerance 0: the traversal from the
    first reaches the second, whose colour matches, and counts it; the
    call reports 2 while one alpha went from non-zero to zero. *)
Lemma counts_alpha_transitions_fails :
  ¬ counts_alpha_transitions pair2 [] 0.
Proof.
  intros Hclaim.
  assert (∃ im', clean_image pair2 [] 0 = Ok (im', 2%nat) ∧
                 size (newly_transparent pair2 im') = 1%nat)
    as (im' & Hrun & Hsize).
  { eexists. split; by vm_compute. }
  specialize (Hclaim im' 2%nat Hrun). lia.
Qed.

(** ** A second run *)

Lemma seed_loop_transparent (W H tolerance : Z) (bg_hints : list (list Z))
    (px : gmap coord color) (bs : list coord) :
  (∀ b, b ∈ bs → b ∈ bounds W H ∧ alpha <$> px !! b = Some 0) →
  seed_loop W H bg_hints tolerance bs (State px ∅ ∅) = Ok (State px ∅ ∅).
Proof.
  induction bs as [|b bs IH]; intros Hbs; [done|].
  simpl. unfold seed_step. rewrite decide_False by apply not_elem_of_empty.
  simpl. destruct (Hbs b) as [Hbb Hb]; [by left|].
  destruct (px !! b) as [p|] eqn:Hp; [|done].
  rewrite (proj2 (getpixel_ok W H _ b p Hbb) Hp).
  simpl in *. injection Hb as ->. simpl. apply IH.
  intros b' Hb'. apply Hbs. by right.
Qed.

(** The first entry of a list that fails a decidable test. *)
Lemma first_failure {A} (P : A → Prop) `{!∀ x, Decision (P x)} (l : list A) :
  (∀ x, x ∈ l → P x) ∨
  ∃ pre x post, l = pre ++ x :: post ∧ (∀ y, y ∈ pre → P y) ∧ ¬ P x.
Proof.
  induction l as [|a l IH].
  - left. intros x Hx. by apply elem_of_nil in Hx.
  - destruct (decide (P a)) as [Ha|Ha].
    + destruct IH as [IH|(pre & x & post & -> & Hpre & Hx)].
      * left. intros x Hx. apply elem_of_cons in Hx as [->|?]; auto.
      * right. exists (a :: pre), x, post. split; [done|]. split; [|done].
        intros y Hy. apply elem_of_cons in Hy as [->|?]; auto.
    + right. exists [], a, l. split; [done|]. split; [|done].
      intros y Hy. by apply elem_of_nil in Hy.
Qed.

(** [clean_image] finds nothing to clear exactly when the border is already
    transparent (for a tolerance that is not negative). *)
Lemma clean_noop_iff (im : image) (bg_hints : list (list Z)) (tolerance : Z) :
  wf_image im →
  (border_transparent im → clean_image im bg_hints tolerance = Ok (im, 0%nat)) ∧
  (0 ≤ tolerance →
   (∃ im', clean_image im bg_hints tolerance = Ok (im', 0%nat)) → border_transparent im).
Proof.
  intros Hwf. split.
  - intros Hb. unfold clean_image, clean_state, init.
    rewrite seed_loop_transparent; [simpl; by destruct im|].
    intros b Hbp. split; [|by apply Hb].
    destruct Hwf as (HW & HH & _). by apply elem_of_border_pixels.
  - intros Ht (im' & Hrun).
    destruct (clean_state_spec im bg_hints tolerance Hwf) as (st' & Hst & Hinv & HT).
    unfold clean_image in Hrun. rewrite Hst in Hrun. simpl in Hrun.
    injection Hrun as _ Hsize. apply size_empty_inv in Hsize.
    destruct (first_failure (λ b, alpha <$> pixels im !! b = Some 0)
                (border_pixels (width im) (height im)))
      as [Hall|(pre & b & post & Heq & Hpre & Hb)]; [exact Hall|].
    exfalso. pose proof Hwf as (HW & HH & Hdom & _).
    assert (Hbb : b ∈ bounds (width im) (height im)).
    { apply elem_of_border_pixels; [done..|]. rewrite Heq.
      apply elem_of_app. right. by left. }
    assert (Hp : is_Some (pixels im !! b)) by (apply elem_of_dom; by rewrite Hdom).
    destruct Hp as [p Hp].
    assert (Ha : alpha p ≠ 0).
    { intros Ha. apply Hb. rewrite Hp. simpl. by rewrite Ha. }
    assert (Hin : b ∈ to_clear st').
    { apply HT. exists b, p, ∅. split.
      - exists pre, post, (init im). split; [done|]. split.
        { apply seed_loop_transparent. intros b' Hb'. split; [|by apply Hpre].
          apply elem_of_border_pixels; [done..|]. rewrite Heq.
          apply elem_of_app. by left. }
        split; [apply not_elem_of_empty|].
        split; [by apply getpixel_ok|]. done.
      - apply region_seed; [done|apply not_elem_of_empty|].
        exists p. split; [done|]. by apply distance_le_refl. }
    rewrite (leibniz_equiv _ _ Hsize) in Hin. by apply elem_of_empty in Hin.
Qed.

Lemma pixel_ok_transparent : pixel_ok transparent_black.
Proof. repeat constructor; lia. Qed.

(** [clean_image] returns a well-formed image of the same size. *)
Lemma clean_wf (im im' : image) (bg_hints : list (list Z)) (tolerance : Z) (n : nat) :
  wf_image im → clean_image im bg_hints tolerance = Ok (im', n) →
  wf_image im' ∧ width im' = width im ∧ height im' = height im.
Proof.
  intros Hwf Hrun.
  destruct (clean_state_spec im bg_hints tolerance Hwf) as (st' & Hst & Hinv & _).
  unfold clean_image in Hrun. rewrite Hst in Hrun. simpl in Hrun.
  injection Hrun as <- _. destruct Hwf as (HW & HH & _ & Hbytes).
  split; [|done]. split; [done|]. split; [done|]. simpl.
  split; [apply (inv_dom _ _ _ _ Hinv)|].
  intros c p Hp. destruct (decide (c ∈ to_clear st')) as [Hc|Hc].
  - rewrite (inv_cleared _ _ _ _ Hinv c Hc) in Hp. injection Hp as <-.
    apply pixel_ok_transparent.
  - rewrite (inv_kept _ _ _ _ Hinv c Hc) in Hp. by apply (Hbytes c).
Qed.

(** C4 (amended).  The second run changes nothing and reports zero when
    the first run left every border pixel transparent, and, for a
    tolerance that is not negative, only then. *)
Theorem second_run_noop_iff_border_cleared
    (im im1 : image) (bg_hints : list (list Z)) (tolerance : Z) (n1 : nat) :
  wf_image im → clean_image im bg_hints tolerance = Ok (im1, n1) →
  (border_transparent im1 → clean_image im1 bg_hints tolerance = Ok (im1, 0%nat)) ∧
  (0 ≤ tolerance →
   clean_image im1 bg_hints tolerance = Ok (im1, 0%nat) → border_transparent im1).
Proof.
  intros Hwf Hrun.
  destruct (clean_wf _ _ _ _ _ Hwf Hrun) as (Hwf1 & _).
  destruct (clean_noop_iff im1 bg_hints tolerance Hwf1) as [H1 H2].
  split; [done|]. intros Ht H2nd. apply H2; [done|]. by exists im1.
Qed.

Lemma second_run_noop_iff_border_cleared_witness :
  ∃ im1 n1,
    clean_image dot1 [] 10 = Ok (im1, n1) ∧
    (border_transparent im1 → clean_image im1 [] 10 = Ok (im1, 0%nat)) ∧
    (0 ≤ 10 → clean_image im1 [] 10 = Ok (im1, 0%nat) → border_transparent im1).
Proof.
  eexists _, _. split; [vm_compute; reflexivity|].
  eapply (second_run_noop_iff_border_cleared dot1 _ [] 10 _ wf_dot1).
  vm_compute. reflexivity.
Defined.

(** C4, as worded, fails on the three pixels in a row: the first run
    leaves the middle pixel (visited, over tolerance for the black seed)
    opaque; the second run takes it as a seed and clears it. *)
Lemma second_run_is_noop_fails :
  ¬ second_run_is_noop row3 [] 10.
Proof.
  intros Hclaim.
  assert (∃ im1 n1, clean_image row3 [] 10 = Ok (im1, n1) ∧
            ∃ im2, clean_image im1 [] 10 = Ok (im2, 1%nat))
    as (im1 & n1 & Hrun & im2 & Hrun2).
  { eexists _, _. split; [by vm_compute|]. eexists. by vm_compute. }
  specialize (Hclaim im1 n1 Hrun). congruence.
Qed.

(** ** The clearing step *)

(** C5 (amended).  The clearing step overwrites the pixel with
    [(0, 0, 0, 0)], all four channels, and touches no other pixel; so
    after the call every cleared pixel is [(0, 0, 0, 0)] and every other
    pixel has its four original channels. *)
Theorem clearing_overwrites_all_channels
    (im : image) (bg_hints : list (list Z)) (tolerance : Z) :
  wf_image im →
  (∀ ref c q st p,
     c ∈ bounds (width im) (height im) →
     c ∉ visited st → st_pixels st !! c = Some p →
     distance_le (channels p) (channels ref) tolerance = true →
     flood_iter (width im) (height im) tolerance ref c q st
     = Ok (q ++ neighbours (width im) (height im) c,
           State (<[c := (0, 0, 0, 0)]> (st_pixels st))
                 ({[c]} ∪ visited st) ({[c]} ∪ to_clear st))) ∧
  ∃ st', clean_state im bg_hints tolerance = Ok st' ∧
    ∀ c, (c ∈ to_clear st' → st_pixels st' !! c = Some (0, 0, 0, 0)) ∧
         (c ∉ to_clear st' → st_pixels st' !! c = pixels im !! c).
Proof.
  intros Hwf. split.
  - intros ref c q st p Hcb Hc Hp Hd. unfold flood_iter.
    rewrite decide_False by done. simpl.
    rewrite (proj2 (getpixel_ok _ _ _ c p Hcb) Hp). simpl. rewrite Hd.
    by rewrite (putpixel_in _ _ _ c p _ Hcb Hp).
  - destruct (clean_state_spec im bg_hints tolerance Hwf)
      as (st' & Hrun & Hinv & _).
    exists st'. split; [done|]. intros c. split.
    + apply (inv_cleared _ _ _ _ Hinv).
    + apply (inv_kept _ _ _ _ Hinv).
Qed.

Lemma clearing_overwrites_all_channels_witness :
  (∀ ref c q st p,
     c ∈ bounds (width dot1) (height dot1) →
     c ∉ visited st → st_pixels st !! c = Some p →
     distance_le (channels p) (channels ref) 0 = true →
     flood_iter (width dot1) (height dot1) 0 ref c q st
     = Ok (q ++ neighbours (width dot1) (height dot1) c,
           State (<[c := (0, 0, 0, 0)]> (st_pixels st))
                 ({[c]} ∪ visited st) ({[c]} ∪ to_clear st))) ∧
  ∃ st', clean_state dot1 [] 0 = Ok st' ∧
    ∀ c, (c ∈ to_clear st' → st_pixels st' !! c = Some (0, 0, 0, 0)) ∧
         (c ∉ to_clear st' → st_pixels st' !! c = pixels dot1 !! c).
Proof. exact (clearing_overwrites_all_channels dot1 [] 0 wf_dot1). Defined.

(** C5, as worded, fails on one opaque white pixel: it is cleared and
    its red, green and blue channels go from 255 to 0. *)
Lemma clearing_keeps_rgb_fails :
  ¬ clearing_keeps_rgb dot1 [] 0.
Proof.
  intros Hclaim.
  assert (∃ st', clean_state dot1 [] 0 = Ok st' ∧ (0, 0) ∈ to_clear st' ∧
                 st_pixels st' !! (0, 0) = Some (0, 0, 0, 0))
    as (st' & Hrun & Hin & Hpx).
  { eexists. split; [by vm_compute|]. split; [|by vm_compute].
    apply (bool_decide_unpack _). by vm_compute. }
  assert (Hp : pixels dot1 !! (0, 0) = Some (255, 255, 255, 255))
    by (by vm_compute).
  specialize (Hclaim st' (0, 0) 255 255 255 255 Hrun Hin Hp).
  pose proof (eq_trans (eq_sym Hpx) Hclaim) as Habs. discriminate Habs.
Qed.

(** ** The circular mask *)

Import Masker.







Lemma ideal_ellipse_accepts : accepts_all ideal_ellipse.
Proof. intros bx. by eexists. Qed.

Lemma lookup_image_new {A} (W H : Z) (v : A) (c : coord) :
  pixels (image_new W H v) !! c = if decide (c ∈ bounds W H) then Some v else None.
Proof.
  unfold image_new. simpl. destruct (decide (c ∈ bounds W H)).
  - by apply lookup_gset_to_gmap_Some.
  - by apply lookup_gset_to_gmap_None.
Qed.

Section MaskerFacts.

Variable draw_ellipse : box → result (coord → bool).

Lemma circular_mask_ok (W H : Z) (covers : coord → bool) :
  draw_ellipse (ellipse_box W H) = Ok covers →
  ∃ mask, circular_mask draw_ellipse W H = Ok mask ∧
    width mask = W ∧ height mask = H ∧
    ∀ c, pixels mask !! c
         = if decide (c ∈ bounds W H)
           then Some (if covers c then 255 else 0) else None.
Proof.
  intros Hd. unfold circular_mask. rewrite Hd. simpl.
  eexists. split; [done|]. split; [done|]. split; [done|].
  intros c. simpl. rewrite map_lookup_imap.
  change (gset_to_gmap 0 (bounds W H)) with (pixels (image_new W H 0)).
  rewrite lookup_image_new. by destruct (decide (c ∈ bounds W H)).
Qed.

(** The mask holds no value other than 0 and 255. *)
Lemma circular_mask_values (W H : Z) (mask : raster Z) (c : coord) (m : Z) :
  circular_mask draw_ellipse W H = Ok mask →
  pixels mask !! c = Some m → m = 0 ∨ m = 255.
Proof.
  unfold circular_mask. intros Hm.
  apply bind_ok in Hm as (covers & Hd & [= <-]). simpl.
  rewrite map_lookup_imap.
  change (gset_to_gmap 0 (bounds W H)) with (pixels (image_new W H 0)).
  rewrite lookup_image_new.
  destruct (decide (c ∈ bounds W H)); simpl; [|done].
  intros [= <-]. destruct (covers c); auto.
Qed.

(** What [circular_crop] returns, pixel by pixel. *)
Lemma circular_crop_lookup (img : image) (covers : coord → bool) :
  draw_ellipse (ellipse_box (width img) (height img)) = Ok covers →
  ∃ out, circular_crop draw_ellipse img = Ok out ∧
    width out = width img ∧ height out = height img ∧
    ∀ c, pixels out !! c
         = if decide (c ∈ bounds (width img) (height img))
           then Some (if covers c then default transparent_black (pixels img !! c)
                      else transparent_black)
           else None.
Proof.
  intros Hd.
  destruct (circular_mask_ok _ _ _ Hd) as (mask & Hm & Hw & Hh & Hlook).
  unfold circular_crop. rewrite Hm. simpl. unfold paste.
  rewrite Hw, Hh, !Z.eqb_refl. simpl.
  eexists. split; [done|]. split; [done|]. split; [done|].
  intros c. simpl. rewrite map_lookup_imap.
  change (gset_to_gmap transparent_black (bounds (width img) (height img)))
    with (pixels (image_new (width img) (height img) transparent_black)).
  rewrite lookup_image_new, Hlook.
  destruct (decide (c ∈ bounds (width img) (height img))); simpl; [|done].
  by destruct (covers c), (pixels img !! c).
Qed.

Lemma circular_crop_ok_inv (img out : image) :
  circular_crop draw_ellipse img = Ok out →
  ∃ covers, draw_ellipse (ellipse_box (width img) (height img)) = Ok covers.
Proof.
  unfold circular_crop, circular_mask. intros Ha.
  apply bind_ok in Ha as (mask & Hm & _).
  apply bind_ok in Hm as (covers & Hd & _). by exists covers.
Qed.

End MaskerFacts.

Lemma image_eq (im1 im2 : image) :
  width im1 = width im2 → height im1 = height im2 →
  (∀ c, pixels im1 !! c = pixels im2 !! c) → im1 = im2.
Proof.
  destruct im1, im2. simpl. intros -> -> Hpx. f_equal. by apply map_eq.
Qed.



(** C7.  [circular_crop] on its own output returns that output. *)
Theorem circular_crop_idempotent
    (draw_ellipse : box → result (coord → bool)) (img out : image) :
  circular_crop draw_ellipse img = Ok out → circular_crop draw_ellipse out = Ok out.
Proof.
  intros Ha. destruct (circular_crop_ok_inv _ _ _ Ha) as [covers Hd].
  destruct (circular_crop_lookup draw_ellipse img covers Hd)
    as (out' & Ha' & Hw & Hh & Hlook).
  assert (out' = out) as -> by congruence.
  rewrite <- Hw, <- Hh in Hd.
  destruct (circular_crop_lookup draw_ellipse out covers Hd)
    as (out2 & Ha2 & Hw2 & Hh2 & Hlook2).
  rewrite Ha2. f_equal. apply image_eq; [done..|].
  intros c. rewrite Hlook2, Hw, Hh, Hlook.
  destruct (decide (c ∈ bounds (width img) (height img))); [|done].
  by destruct (covers c).
Qed.

Lemma circular_crop_idempotent_witness :
  ∃ out, circular_crop ideal_ellipse opaque6 = Ok out ∧
         circular_crop ideal_ellipse out = Ok out.
Proof.
  eexists. split; [vm_compute; reflexivity|].
  apply (circular_crop_idempotent ideal_ellipse opaque6). vm_compute. reflexivity.
Defined.

(** Scenario C of the spec's §8, with the reference primitive: of the
    400 pixels the 197 within distance 8 of (10, 10) are kept. *)
Example scenario_C :
  match circular_crop ideal_ellipse opaque20 with
  | Ok out =>
    length (filter (λ c, pixels out !! c = pixels opaque20 !! c)
                   (all_coords 20 20)) = 197%nat ∧
    length (filter (λ c, pixels out !! c = Some transparent_black)
                   (all_coords 20 20)) = 203%nat
  | Err _ => False
  end.
Proof. vm_compute. by split. Qed.


Lemma half_Q (q : Q) : (q / 2 == q * (1 # 2))%Q.
Proof. field. Qed.

Lemma inject_Z_sub (a b : Z) : (inject_Z (a - b) == inject_Z a - inject_Z b)%Q.
Proof. unfold Z.sub. rewrite inject_Z_plus, inject_Z_opp. reflexivity. Qed.

Lemma circular_crop_wf (draw_ellipse : box → result (coord → bool))
    (img out : image) :
  wf_image img → circular_crop draw_ellipse img = Ok out →
  wf_image out ∧ width out = width img ∧ height out = height img.
Proof.
  intros (HW & HH & _ & Hbytes) Ha.
  destruct (circular_crop_ok_inv _ _ _ Ha) as [covers Hd].
  destruct (circular_crop_lookup draw_ellipse img covers Hd)
    as (out' & Ha' & Hw & Hh & Hlook).
  assert (out' = out) as -> by congruence.
  split; [|done]. split; [lia|]. split; [lia|]. rewrite Hw, Hh. split.
  - apply set_eq. intros c. rewrite elem_of_dom, Hlook.
    destruct (decide (c ∈ bounds (width img) (height img))) as [Hc|Hc].
    + split; [done|]. by eexists.
    + split; [by intros [? ?]|done].
  - intros c p. rewrite Hlook.
    destruct (decide (c ∈ bounds (width img) (height img))); [|done].
    intros [= <-]. destruct (covers c); [|apply pixel_ok_transparent].
    destruct (pixels img !! c) as [q|] eqn:Hq; simpl.
    + by apply (Hbytes c).
    + apply pixel_ok_transparent.
Qed.

(** ** The box on small images *)

(** The radius of line 16 is negative exactly below size 4. *)
Lemma radius_negative (W H : Z) :
  (radius W H < 0)%Q ↔ Z.min W H < 4.
Proof.
  unfold radius. rewrite half_Q, (Zlt_Qlt (Z.min W H) 4).
  change (inject_Z 4) with 4%Q. split; intros ?; lra.
Qed.

(** The box of line 19 is proper from size 4 on, and inverted below. *)
Lemma ellipse_box_proper (W H : Z) :
  proper_box (ellipse_box W H) ↔ 4 ≤ Z.min W H.
Proof.
  unfold proper_box, ellipse_box, center, radius.
  rewrite !half_Q, (Zle_Qle 4 (Z.min W H)).
  change (inject_Z 4) with 4%Q. split; [intros [? ?]|intros ?; split]; lra.
Qed.

Lemma ellipse_box_inverted (W H : Z) :
  inverted_box (ellipse_box W H) ↔ Z.min W H < 4.
Proof.
  unfold inverted_box, ellipse_box, center, radius.
  rewrite !half_Q, (Zlt_Qlt (Z.min W H) 4).
  change (inject_Z 4) with 4%Q. split; [intros [? ?]|intros ?; split]; lra.
Qed.

Lemma inverted_not_proper (bx : box) : inverted_box bx → ¬ proper_box bx.
Proof.
  destruct bx as [[[x0 y0] x1] y1]. simpl. intros [? ?] [? ?]. lra.
Qed.

(** An error of the primitive is the error of [circular_crop]. *)
Lemma circular_crop_err (draw_ellipse : box → result (coord → bool))
    (img : image) (e : error) :
  draw_ellipse (ellipse_box (width img) (height img)) = Err e →
  circular_crop draw_ellipse img = Err e.
Proof. intros Hd. unfold circular_crop, circular_mask. by rewrite Hd. Qed.

Lemma strict_ellipse_accepts_proper : accepts_proper strict_ellipse.
Proof.
  intros [[[x0 y0] x1] y1] [Hx Hy]. unfold strict_ellipse.
  apply Qle_bool_iff in Hx, Hy. rewrite Hx, Hy. simpl. by eexists.
Qed.

Lemma strict_ellipse_rejects_improper : rejects_improper strict_ellipse.
Proof.
  intros [[[x0 y0] x1] y1] Hbx. unfold strict_ellipse.
  destruct (Qle_bool x0 x1 && Qle_bool y0 y1) eqn:Hb; [|done].
  exfalso. apply Hbx. apply andb_prop in Hb as [Hx Hy].
  split; by apply Qle_bool_iff.
Qed.

(** C9 (amended).  [clean_image] returns on every well-formed image, for
    every hint list and tolerance, and its result is well formed.
    [circular_crop] fails only through the drawing primitive: it returns
    a well-formed image of the same size when the primitive accepts the
    box of line 19, and fails with the primitive's error when the
    primitive rejects it.  From size 4 on that box is proper, so
    [circular_crop] returns with every primitive that accepts proper
    boxes.  Below size 4, a 1 by 1 image included, the radius is
    negative and the box inverted, so [circular_crop] fails with a
    primitive that rejects such boxes. *)
Theorem cores_total_from_size_four
    (draw_ellipse : box → result (coord → bool))
    (img : image) (bg_hints : list (list Z)) (tolerance : Z) :
  wf_image img →
  (∃ img' n, clean_image img bg_hints tolerance = Ok (img', n) ∧
             wf_image img') ∧
  (∀ covers,
     draw_ellipse (ellipse_box (width img) (height img)) = Ok covers →
     ∃ out, circular_crop draw_ellipse img = Ok out ∧ wf_image out ∧
            width out = width img ∧ height out = height img) ∧
  (∀ e,
     draw_ellipse (ellipse_box (width img) (height img)) = Err e →
     circular_crop draw_ellipse img = Err e) ∧
  (4 ≤ Z.min (width img) (height img) →
     proper_box (ellipse_box (width img) (height img)) ∧
     (accepts_proper draw_ellipse →
      ∃ out, circular_crop draw_ellipse img = Ok out ∧ wf_image out ∧
             width out = width img ∧ height out = height img) ∧
     (∃ out, circular_crop strict_ellipse img = Ok out ∧ wf_image out)) ∧
  (Z.min (width img) (height img) < 4 →
     (radius (width img) (height img) < 0)%Q ∧
     inverted_box (ellipse_box (width img) (height img)) ∧
     (rejects_improper draw_ellipse →
      circular_crop draw_ellipse img = Err ValueError) ∧
     circular_crop strict_ellipse img = Err ValueError).
Proof.
  intros Hwf.
  assert (Hret : ∀ draw covers,
    draw (ellipse_box (width img) (height img)) = Ok covers →
    ∃ out, circular_crop draw img = Ok out ∧ wf_image out ∧
           width out = width img ∧ height out = height img).
  { intros draw covers Hd.
    destruct (circular_crop_lookup draw img covers Hd) as (out & Ha & _).
    exists out. split; [done|]. by apply (circular_crop_wf draw). }
  split; [|split; [|split; [|split]]].
  - destruct (clean_state_spec img bg_hints tolerance Hwf) as (st' & Hrun & _).
    eexists _, _. assert (Hc : clean_image img bg_hints tolerance
      = Ok (Image (width img) (height img) (st_pixels st'), size (to_clear st'))).
    { unfold clean_image. by rewrite Hrun. }
    split; [exact Hc|]. by destruct (clean_wf _ _ _ _ _ Hwf Hc).
  - apply Hret.
  - intros e. apply circular_crop_err.
  - intros Hbig. apply ellipse_box_proper in Hbig. split; [done|]. split.
    + intros Hacc. destruct (Hacc _ Hbig) as [covers Hd]. by eapply Hret.
    + destruct (strict_ellipse_accepts_proper _ Hbig) as [covers Hd].
      destruct (Hret _ _ Hd) as (out & Ha & Hwf' & _). by exists out.
  - intros Hsmall. split; [by apply radius_negative|].
    apply ellipse_box_inverted in Hsmall. split; [done|].
    apply inverted_not_proper in Hsmall. split.
    + intros Hrej. by apply circular_crop_err, Hrej.
    + by apply circular_crop_err, strict_ellipse_rejects_improper.
Qed.

Lemma cores_total_from_size_four_witness :
  (∃ img' n, clean_image dot1 [] 0 = Ok (img', n) ∧ wf_image img') ∧
  (∀ covers,
     strict_ellipse (ellipse_box (width dot1) (height dot1)) = Ok covers →
     ∃ out, circular_crop strict_ellipse dot1 = Ok out ∧ wf_image out ∧
            width out = width dot1 ∧ height out = height dot1) ∧
  (∀ e,
     strict_ellipse (ellipse_box (width dot1) (height dot1)) = Err e →
     circular_crop strict_ellipse dot1 = Err e) ∧
  (4 ≤ Z.min (width dot1) (height dot1) →
     proper_box (ellipse_box (width dot1) (height dot1)) ∧
     (accepts_proper strict_ellipse →
      ∃ out, circular_crop strict_ellipse dot1 = Ok out ∧ wf_image out ∧
             width out = width dot1 ∧ height out = height dot1) ∧
     (∃ out, circular_crop strict_ellipse dot1 = Ok out ∧ wf_image out)) ∧
  (Z.min (width dot1) (height dot1) < 4 →
     (radius (width dot1) (height dot1) < 0)%Q ∧
     inverted_box (ellipse_box (width dot1) (height dot1)) ∧
     (rejects_improper strict_ellipse →
      circular_crop strict_ellipse dot1 = Err ValueError) ∧
     circular_crop strict_ellipse dot1 = Err ValueError).
Proof. exact (cores_total_from_size_four strict_ellipse dot1 [] 0 wf_dot1). Defined.

(** On one opaque pixel: the radius is negative, the primitive rejects
    the box. *)
Example circular_crop_inverted_box :
  circular_crop strict_ellipse dot1 = Err ValueError.
Proof. reflexivity. Qed.

(** C9, as worded, fails for [circular_crop] on the 1 by 1 image with a
    primitive that rejects an inverted box: line 16 gives the radius
    [1 / 2 - 2], line 19 hands over the box [(2, 2, -1, -1)], the
    primitive raises, and so does [circular_crop]. *)
Lemma cores_are_total_fails : ¬ cores_are_total strict_ellipse.
Proof.
  intros [_ Hmask]. destruct (Hmask dot1 wf_dot1) as [out Hout].
  vm_compute in Hout. discriminate Hout.
Qed.

(** * Further properties of the code *)

(** ** The border list *)

Lemma length_bind_pair {A B} (f : A → list B) (l : list A) (n : nat) :
  (∀ x, length (f x) = n) → length (l ≫= f) = (n * length l)%nat.
Proof.
  intros Hf. induction l as [|x l IH]; [simpl; lia|].
  rewrite bind_cons, length_app, Hf, IH. simpl. lia.
Qed.

(** X1.  For an image at least one pixel wide and high, the border list
    of lines 18-24 holds exactly the coordinates of the first and last
    column and row, and it has [2 * W + 2 * H] entries (so the corners,
    and on a one-pixel-wide image every coordinate, occur more than
    once). *)
Theorem border_pixels_are_the_edge (W H : Z) :
  1 ≤ W → 1 ≤ H →
  (∀ c, c ∈ border_pixels W H ↔ c ∈ bounds W H ∧ on_edge W H c) ∧
  length (border_pixels W H) = Z.to_nat (2 * W + 2 * H).
Proof.
  intros HW HH. split.
  - intros c. by apply elem_of_border_pixels_iff.
  - unfold border_pixels.
    rewrite length_app, !(length_bind_pair _ _ 2), !length_range by done.
    lia.
Qed.

Lemma border_pixels_are_the_edge_witness :
  (∀ c, c ∈ border_pixels 3 1 ↔ c ∈ bounds 3 1 ∧ on_edge 3 1 c) ∧
  length (border_pixels 3 1) = Z.to_nat (2 * 3 + 2 * 1).
Proof. apply (border_pixels_are_the_edge 3 1); lia. Defined.

(** ** Seeds *)

(** Two ways of cutting a list at the first occurrence of [s] agree. *)
Lemma first_occurrence_unique {A} (s : A) (pre pre' post post' : list A) :
  pre ++ s :: post = pre' ++ s :: post' → s ∉ pre → s ∉ pre' →
  pre = pre' ∧ post = post'.
Proof.
  revert pre'. induction pre as [|a pre IH]; intros [|a' pre'] Heq Hs Hs';
    simpl in Heq.
  - by injection Heq as ->.
  - injection Heq as <- _. exfalso. apply Hs'. by left.
  - injection Heq as -> _. exfalso. apply Hs. by left.
  - injection Heq as <- Heq. destruct (IH pre' Heq) as [-> ->].
    + intros ?. apply Hs. by right.
    + intros ?. apply Hs'. by right.
    + done.
Qed.

(** A position at which the loop takes [s] as a seed is the first
    position of the border list that holds [s]. *)
Lemma seeded_at_first (im : image) (bg_hints : list (list Z)) (tolerance : Z)
    (pre : list coord) (s : coord) (post : list coord)
    (st : state) (ref : color) :
  wf_image im → seeded_at im bg_hints tolerance pre s post st ref →
  (s ∉ pre) ∧ pixels im !! s = Some ref ∧ alpha ref ≠ 0 ∧
  s ∈ bounds (width im) (height im).
Proof.
  intros Hwf (Heq & Hrun & Hnv & Hg & Ha). pose proof Hwf as (HW & HH & _).
  assert (Hin : ∀ c, c ∈ pre ++ s :: post →
                     c ∈ bounds (width im) (height im)).
  { intros c Hc. apply elem_of_border_pixels; [done..|]. by rewrite Heq. }
  assert (Hsb : s ∈ bounds (width im) (height im)).
  { apply Hin, elem_of_app. right. by left. }
  destruct (seed_loop_spec (pixels im) (width im) (height im) tolerance
              bg_hints HW HH pre (init im)) as (st0 & Hrun0 & Hinv & _).
  { by apply init_inv. }
  { intros c Hc. apply Hin, elem_of_app. by left. }
  assert (st0 = st) as -> by congruence.
  assert (Hp0 : pixels im !! s = Some ref).
  { apply getpixel_ok in Hg; [|done]. rewrite <- Hg. symmetry.
    apply (inv_kept _ _ _ _ Hinv).
    pose proof (inv_to_clear _ _ _ _ Hinv). set_solver. }
  split; [|done]. intros Hs.
  apply list_elem_of_split in Hs as (a & b & ->).
  destruct (passed_border_pixel im bg_hints tolerance a s b st Hwf)
    as (_ & [Hv|Ha0]); [|done|done|].
  - intros c Hc. apply Hin, elem_of_app. by left.
  - rewrite Hp0 in Ha0. simpl in Ha0. congruence.
Qed.

(** X2.  A coordinate is taken as a seed at most once in a call, though
    the border list names the corners (and more, on thin images) several
    times.  If the loop takes [s] as a seed at a position of the border
    list, that position is the first one that holds [s]; at every later
    position that holds [s] the loop arrives with [s] visited, and its
    body (line 27) leaves the state as it is; so any position at which
    [s] is taken as a seed is this one.  A seed is a non-transparent
    pixel of the first or last column or row, taken with its original
    colour. *)
Theorem seed_selected_once
    (im : image) (bg_hints : list (list Z)) (tolerance : Z)
    (pre : list coord) (s : coord) (post : list coord)
    (st : state) (ref : color) :
  wf_image im →
  seeded_at im bg_hints tolerance pre s post st ref →
  (s ∉ pre) ∧
  (∀ k post2, post = k ++ s :: post2 →
     ∃ st2,
       seed_loop (width im) (height im) bg_hints tolerance
         (pre ++ s :: k) (init im) = Ok st2 ∧
       s ∈ visited st2 ∧
       seed_step (width im) (height im) bg_hints tolerance s st2 = Ok st2 ∧
       ∀ ref2, ¬ seeded_at im bg_hints tolerance (pre ++ s :: k) s post2
                  st2 ref2) ∧
  (∀ pre' post' st' ref',
     seeded_at im bg_hints tolerance pre' s post' st' ref' →
     pre' = pre ∧ post' = post ∧ st' = st ∧ ref' = ref) ∧
  selected im bg_hints tolerance s ref (visited st) ∧
  s ∈ bounds (width im) (height im) ∧ on_edge (width im) (height im) s ∧
  pixels im !! s = Some ref ∧ alpha ref ≠ 0.
Proof.
  intros Hwf Hsd. pose proof Hwf as (HW & HH & _).
  destruct (seeded_at_first _ _ _ _ _ _ _ _ Hwf Hsd) as (Hfirst & Hp0 & Ha & Hsb).
  pose proof Hsd as (Heq & Hrun & Hnv & Hg & _).
  split; [done|]. split; [|split; [|split; [|split; [|split]]]].
  - intros k post2 ->.
    assert (Heq2 : border_pixels (width im) (height im)
                   = (pre ++ s :: k) ++ s :: post2).
    { rewrite Heq. by rewrite <- app_assoc. }
    destruct (border_loop_split im bg_hints tolerance (pre ++ s :: k) s post2
                Hwf Heq2) as (st2 & _ & _ & Hrun2 & _).
    destruct (passed_border_pixel im bg_hints tolerance pre s k st2 Hwf)
      as (_ & [Hv|Ha0]); [|done| |].
    + intros c Hc. apply elem_of_border_pixels; [done..|].
      rewrite Heq2. apply elem_of_app. by left.
    + exists st2. split; [done|]. split; [done|]. split.
      * unfold seed_step. by rewrite decide_True.
      * intros ref2 (_ & _ & Hnv2 & _). by apply Hnv2.
    + rewrite Hp0 in Ha0. simpl in Ha0. congruence.
  - intros pre' post' st' ref' Hsd'.
    destruct (seeded_at_first _ _ _ _ _ _ _ _ Hwf Hsd') as (Hfirst' & Hp0' & _).
    destruct Hsd' as (Heq' & Hrun' & _).
    rewrite Heq in Heq'.
    destruct (first_occurrence_unique s pre pre' post post' Heq' Hfirst Hfirst')
      as [<- <-].
    split; [done|]. split; [done|]. split; congruence.
  - exists pre, post, st. by repeat split.
  - done.
  - assert (Hb : s ∈ border_pixels (width im) (height im)).
    { rewrite Heq. apply elem_of_app. right. by left. }
    by apply elem_of_border_pixels_iff in Hb as [_ ?].
  - done.
Qed.

Lemma seed_selected_once_witness :
  ∃ st,
    seeded_at row3 [] 10 [(0, 0); (0, 0); (1, 0); (1, 0)] (2, 0)
      [(2, 0); (0, 0); (2, 0)] st (100, 0, 0, 255) ∧
    ((2, 0) ∉ [(0, 0); (0, 0); (1, 0); (1, 0)]) ∧
    (∀ k post2, [(2, 0); (0, 0); (2, 0)] = k ++ (2, 0) :: post2 →
       ∃ st2,
         seed_loop (width row3) (height row3) [] 10
           ([(0, 0); (0, 0); (1, 0); (1, 0)] ++ (2, 0) :: k) (init row3)
         = Ok st2 ∧
         (2, 0) ∈ visited st2 ∧
         seed_step (width row3) (height row3) [] 10 (2, 0) st2 = Ok st2 ∧
         ∀ ref2, ¬ seeded_at row3 [] 10
                     ([(0, 0); (0, 0); (1, 0); (1, 0)] ++ (2, 0) :: k) (2, 0)
                     post2 st2 ref2) ∧
    (∀ pre' post' st' ref',
       seeded_at row3 [] 10 pre' (2, 0) post' st' ref' →
       pre' = [(0, 0); (0, 0); (1, 0); (1, 0)] ∧
       post' = [(2, 0); (0, 0); (2, 0)] ∧ st' = st ∧
       ref' = (100, 0, 0, 255)) ∧
    selected row3 [] 10 (2, 0) (100, 0, 0, 255) (visited st) ∧
    (2, 0) ∈ bounds (width row3) (height row3) ∧
    on_edge (width row3) (height row3) (2, 0) ∧
    pixels row3 !! (2, 0) = Some (100, 0, 0, 255) ∧
    alpha (100, 0, 0, 255) ≠ 0.
Proof.
  pose (st := match seed_loop 3 1 [] 10 [(0, 0); (0, 0); (1, 0); (1, 0)]
                      (init row3) with
              | Ok st => st
              | Err _ => init row3
              end).
  assert (Hsd : seeded_at row3 [] 10 [(0, 0); (0, 0); (1, 0); (1, 0)] (2, 0)
                  [(2, 0); (0, 0); (2, 0)] st (100, 0, 0, 255)).
  { split; [vm_compute; reflexivity|]. split; [vm_compute; reflexivity|].
    split; [apply (bool_decide_unpack _); vm_compute; exact I|].
    split; [vm_compute; reflexivity|]. done. }
  exists st. split; [exact Hsd|].
  exact (seed_selected_once row3 [] 10 _ _ _ st _ wf_row3 Hsd).
Defined.

(** ** The colour distance *)

Lemma get_distance_sq_pixels (r g b a r' g' b' a' : Z) :
  get_distance_sq (channels (r, g, b, a)) (channels (r', g', b', a'))
  = (r - r') ^ 2 + (g - g') ^ 2 + (b - b') ^ 2.
Proof. unfold get_distance_sq. cbn [channels take sum_sq]. lia. Qed.

(** X3.  On two pixels [get_distance] is the root of the sum of the
    squared differences of red, green and blue: alpha plays no part, the
    order of the arguments neither, and the distance is zero only
    between pixels of one RGB value.  A pixel within one tolerance of
    another is within every larger one. *)
Theorem get_distance_ignores_alpha (r g b a r' g' b' a' : Z) :
  get_distance_sq (channels (r, g, b, a)) (channels (r', g', b', a'))
  = (r - r') ^ 2 + (g - g') ^ 2 + (b - b') ^ 2 ∧
  get_distance_sq (channels (r, g, b, a)) (channels (r', g', b', a'))
  = get_distance_sq (channels (r', g', b', a')) (channels (r, g, b, a)) ∧
  (get_distance_sq (channels (r, g, b, a)) (channels (r', g', b', a')) = 0
   ↔ r = r' ∧ g = g' ∧ b = b') ∧
  (∀ t t', t ≤ t' →
     distance_le (channels (r, g, b, a)) (channels (r', g', b', a')) t = true →
     distance_le (channels (r, g, b, a)) (channels (r', g', b', a')) t' = true).
Proof.
  unfold distance_le. rewrite !get_distance_sq_pixels.
  split; [done|]. split; [lia|]. split; [nia|].
  intros t t' Hle Hd. apply andb_prop in Hd as [H0 Hd].
  apply Z.leb_le in H0. apply Z.leb_le in Hd.
  apply andb_true_intro. split; apply Z.leb_le; nia.
Qed.

(** X4.  A hint shorter than three entries is compared on the channels
    it has, and entries after the third are ignored ([zip] stops at the
    shorter sequence).  An empty hint is at distance 0 from every pixel,
    so with a positive tolerance the hint loop accepts every pixel. *)
Theorem short_hint_compares_prefix (r g b a h1 h2 h3 : Z) (rest : list Z) :
  get_distance_sq (channels (r, g, b, a)) [] = 0 ∧
  get_distance_sq (channels (r, g, b, a)) [h1] = (r - h1) ^ 2 ∧
  get_distance_sq (channels (r, g, b, a)) [h1; h2]
  = (r - h1) ^ 2 + (g - h2) ^ 2 ∧
  get_distance_sq (channels (r, g, b, a)) (h1 :: h2 :: h3 :: rest)
  = (r - h1) ^ 2 + (g - h2) ^ 2 + (b - h3) ^ 2 ∧
  (∀ hints tolerance, 0 < tolerance →
     hint_match (r, g, b, a) ([] :: hints) tolerance = true).
Proof.
  unfold get_distance_sq. cbn [channels take sum_sq].
  split; [done|]. split; [lia|]. split; [lia|]. split; [lia|].
  intros hints t Ht. cbn [hint_match]. unfold distance_lt, get_distance_sq.
  cbn [channels take sum_sq].
  destruct (Z.ltb_spec 0 t) as [_|?]; [|lia].
  destruct (Z.ltb_spec 0 (t * t)) as [_|?]; [done|nia].
Qed.

(** ** What a call clears *)

Lemma region_member (px : gmap coord color) (W H tolerance : Z)
    (V0 : gset coord) (ref : color) (s c : coord) :
  region px W H tolerance V0 ref s c →
  c ∈ bounds W H ∧ (c ∉ V0) ∧ within px tolerance ref c.
Proof. by destruct 1. Qed.

Lemma region_start (px : gmap coord color) (W H tolerance : Z)
    (V0 : gset coord) (ref : color) (s c : coord) :
  region px W H tolerance V0 ref s c → region px W H tolerance V0 ref s s.
Proof. induction 1; [by apply region_seed|done]. Qed.

Lemma clean_image_of_state (im : image) (bg_hints : list (list Z))
    (tolerance : Z) (st' : state) :
  clean_state im bg_hints tolerance = Ok st' →
  clean_image im bg_hints tolerance
  = Ok (Image (width im) (height im) (st_pixels st'), size (to_clear st')).
Proof. intros Hrun. unfold clean_image. by rewrite Hrun. Qed.

Lemma within_nonneg (px : gmap coord color) (tolerance : Z) (ref : color)
    (c : coord) :
  within px tolerance ref c → 0 ≤ tolerance.
Proof.
  intros (p & _ & Hd). unfold distance_le in Hd.
  apply andb_prop in Hd as [H0 _]. by apply Z.leb_le in H0.
Qed.

(** With nothing cleared the image is as it was. *)
Lemma nothing_cleared (im : image) (st' : state) :
  inv (pixels im) (width im) (height im) st' → to_clear st' = ∅ →
  Image (width im) (height im) (st_pixels st') = im.
Proof.
  intros Hinv He. destruct im as [W H px]. simpl in *. f_equal.
  apply map_eq. intros c. apply (inv_kept _ _ _ _ Hinv).
  rewrite He. apply not_elem_of_empty.
Qed.

(** X5.  With a negative tolerance no pixel passes the distance test:
    the call returns the image unchanged and reports 0. *)
Theorem clean_negative_tolerance
    (im : image) (bg_hints : list (list Z)) (tolerance : Z) :
  wf_image im → tolerance < 0 →
  clean_image im bg_hints tolerance = Ok (im, 0%nat).
Proof.
  intros Hwf Hneg.
  destruct (clean_state_spec im bg_hints tolerance Hwf) as (st' & Hrun & Hinv & HT).
  assert (He : to_clear st' = ∅).
  { apply set_eq. intros c. split; [|by intros ?%elem_of_empty].
    intros Hc. apply HT in Hc as (s & ref & V0 & _ & Hr).
    apply region_member in Hr as (_ & _ & Hw). apply within_nonneg in Hw. lia. }
  rewrite (clean_image_of_state _ _ _ _ Hrun), He, size_empty.
  by rewrite (nothing_cleared im st' Hinv He).
Qed.

Lemma clean_negative_tolerance_witness :
  clean_image green_centre5 [] (-1) = Ok (green_centre5, 0%nat).
Proof.
  apply (clean_negative_tolerance green_centre5 [] (-1) wf_green_centre5). lia.
Defined.






(** ** The count *)

Lemma NoDup_range (n : Z) : NoDup (range n).
Proof.
  unfold range. apply NoDup_fmap_2_strong; [|apply NoDup_seq].
  intros x y _ _ Hxy. lia.
Qed.

Lemma NoDup_all_coords (W H : Z) : NoDup (all_coords W H).
Proof.
  unfold all_coords. apply NoDup_bind; [| |apply NoDup_range].
  - intros x1 x2 c _ _ H1 H2.
    apply list_elem_of_bind in H1 as (y1 & H1 & _).
    apply list_elem_of_bind in H2 as (y2 & H2 & _).
    apply list_elem_of_singleton in H1. apply list_elem_of_singleton in H2.
    congruence.
  - intros x _. apply NoDup_bind; [| |apply NoDup_range].
    + intros y1 y2 c _ _ H1 H2.
      apply list_elem_of_singleton in H1. apply list_elem_of_singleton in H2.
      congruence.
    + intros y _. apply NoDup_singleton.
Qed.

Lemma size_bounds (W H : Z) :
  0 ≤ W → 0 ≤ H → size (bounds W H) = Z.to_nat (W * H).
Proof.
  intros HW HH. unfold bounds.
  rewrite size_list_to_set by apply NoDup_all_coords.
  rewrite length_all_coords. rewrite Z2Nat.inj_mul by lia. done.
Qed.

(** X8.  The count a call reports is at most the number of pixels, and
    it is 0 exactly when the call left the image as it was. *)
Theorem cleared_count_bounds
    (im im' : image) (bg_hints : list (list Z)) (tolerance : Z) (n : nat) :
  wf_image im → clean_image im bg_hints tolerance = Ok (im', n) →
  (n ≤ Z.to_nat (width im * height im))%nat ∧ (n = 0%nat ↔ im' = im).
Proof.
  intros Hwf Hc. pose proof Hwf as (HW & HH & Hdom & _).
  destruct (clean_state_spec im bg_hints tolerance Hwf) as (st' & Hrun & Hinv & HT).
  rewrite (clean_image_of_state _ _ _ _ Hrun) in Hc. injection Hc as <- <-.
  split.
  - rewrite <- size_bounds by lia. apply subseteq_size.
    pose proof (inv_to_clear _ _ _ _ Hinv).
    pose proof (inv_visited _ _ _ _ Hinv). set_solver.
  - split.
    + intros Hn. apply size_empty_iff in Hn.
      apply (nothing_cleared im st' Hinv). by apply leibniz_equiv.
    + intros Heq. apply size_empty_iff. apply equiv_empty. intros c Hc.
      apply HT in Hc as (s & ref & V0 & Hsel & Hr).
      apply region_start in Hr.
      assert (Hs : s ∈ to_clear st') by (apply HT; by exists s, ref, V0).
      destruct (selected_original _ _ _ _ _ _ Hwf Hsel) as (_ & Hpx & Ha & _).
      pose proof (inv_cleared _ _ _ _ Hinv s Hs) as Hnew.
      assert (Hsame : st_pixels st' !! s = pixels im !! s).
      { change (st_pixels st' !! s)
          with (pixels (Image (width im) (height im) (st_pixels st')) !! s).
        by rewrite Heq. }
      rewrite Hnew, Hpx in Hsame. injection Hsame as <-. by destruct Ha.
Qed.

Lemma cleared_count_bounds_witness :
  ∃ im', clean_image pair2 [] 0 = Ok (im', 2%nat) ∧
    (2 ≤ Z.to_nat (width pair2 * height pair2))%nat ∧ (2%nat = 0%nat ↔ im' = pair2).
Proof.
  eexists. split; [vm_compute; reflexivity|].
  apply (cleared_count_bounds pair2 _ [] 0 2 wf_pair2). vm_compute. reflexivity.
Defined.

(** ** Images cleared as a whole *)

(** Any two pixels of the image are joined by a path of 4-adjacent
    pixels of the image. *)
Lemma grid_connected (px : gmap coord color) (W H tolerance : Z)
    (ref : color) (s : coord) :
  s ∈ bounds W H →
  (∀ c, c ∈ bounds W H → within px tolerance ref c) →
  ∀ c, c ∈ bounds W H → region px W H tolerance ∅ ref s c.
Proof.
  intros Hs Hall.
  assert (Hn : ∀ (n : nat) c, c ∈ bounds W H →
    Z.abs (c.1 - s.1) + Z.abs (c.2 - s.2) ≤ Z.of_nat n →
    region px W H tolerance ∅ ref s c).
  { induction n as [|n IH]; intros [x y] Hc Hd; simpl in *.
    - assert (x = s.1 ∧ y = s.2) as [-> ->] by lia.
      destruct s. apply region_seed; [done|apply not_elem_of_empty|by apply Hall].
    - apply elem_of_bounds in Hs as Hs'. apply elem_of_bounds in Hc as Hc'.
      simpl in *.
      destruct (decide (x = s.1)) as [->|Hx];
        [destruct (decide (y = s.2)) as [->|Hy]|].
      + destruct s. apply region_seed;
          [done|apply not_elem_of_empty|by apply Hall].
      + assert (∃ y0, (y0 = y - 1 ∨ y0 = y + 1) ∧
                  Z.abs (y0 - s.2) + 1 = Z.abs (y - s.2) ∧ 0 ≤ y0 < H)
          as (y0 & Hy0 & Hd0 & Hb0).
        { destruct (Z.lt_ge_cases y s.2); [exists (y + 1)|exists (y - 1)]; lia. }
        apply (region_step _ _ _ _ _ _ _ (s.1, y0) (s.1, y)).
        * apply IH; [apply elem_of_bounds; simpl; lia|simpl; lia].
        * unfold adjacent. simpl.
          destruct Hy0 as [->| ->]; set_unfold;
            [right; right; right; left|right; right; left]; f_equal; lia.
        * done.
        * apply not_elem_of_empty.
        * by apply Hall.
      + assert (∃ x0, (x0 = x - 1 ∨ x0 = x + 1) ∧
                  Z.abs (x0 - s.1) + 1 = Z.abs (x - s.1) ∧ 0 ≤ x0 < W)
          as (x0 & Hx0 & Hd0 & Hb0).
        { destruct (Z.lt_ge_cases x s.1); [exists (x + 1)|exists (x - 1)]; lia. }
        apply (region_step _ _ _ _ _ _ _ (x0, y) (x, y)).
        * apply IH; [apply elem_of_bounds; simpl; lia|simpl; lia].
        * unfold adjacent. simpl.
          destruct Hx0 as [->| ->]; set_unfold;
            [right; left|left]; f_equal; lia.
        * done.
        * apply not_elem_of_empty.
        * by apply Hall. }
  intros c Hc.
  apply (Hn (Z.to_nat (Z.abs (c.1 - s.1) + Z.abs (c.2 - s.2))) c Hc). lia.
Qed.

(** When every pixel is within tolerance of every other and some border
    pixel is not transparent, the first such pixel's traversal clears
    the whole image. *)
Lemma clean_floods_all (im : image) (bg_hints : list (list Z)) (tolerance : Z) :
  wf_image im →
  (∀ c c' p q, pixels im !! c = Some p → pixels im !! c' = Some q →
     distance_le (channels p) (channels q) tolerance = true) →
  ¬ border_transparent im →
  clean_image im bg_hints tolerance
  = Ok (Masker.image_new (width im) (height im) transparent_black,
        Z.to_nat (width im * height im)).
Proof.
  intros Hwf Hall Hb. pose proof Hwf as (HW & HH & Hdom & _).
  destruct (clean_state_spec im bg_hints tolerance Hwf) as (st' & Hrun & Hinv & HT).
  destruct (first_failure (λ b, alpha <$> pixels im !! b = Some 0)
              (border_pixels (width im) (height im)))
    as [Hnone|(pre & b & post & Heq & Hpre & Hbad)]; [done|].
  assert (Hbb : b ∈ bounds (width im) (height im)).
  { apply elem_of_border_pixels; [done..|]. rewrite Heq.
    apply elem_of_app. right. by left. }
  assert (Hp : is_Some (pixels im !! b)) by (apply elem_of_dom; by rewrite Hdom).
  destruct Hp as [p Hp].
  assert (Ha : alpha p ≠ 0).
  { intros Ha. apply Hbad. rewrite Hp. simpl. by rewrite Ha. }
  assert (Hsel : selected im bg_hints tolerance b p ∅).
  { exists pre, post, (init im). split; [done|]. split.
    { apply seed_loop_transparent. intros b' Hb'. split; [|by apply Hpre].
      apply elem_of_border_pixels; [done..|]. rewrite Heq.
      apply elem_of_app. by left. }
    split; [apply not_elem_of_empty|].
    split; [by apply getpixel_ok|]. done. }
  assert (Hfull : to_clear st' = bounds (width im) (height im)).
  { apply set_eq. intros c. split.
    - pose proof (inv_to_clear _ _ _ _ Hinv).
      pose proof (inv_visited _ _ _ _ Hinv). set_solver.
    - intros Hc. apply HT. exists b, p, ∅. split; [done|].
      apply grid_connected; [done| |done].
      intros c' Hc'.
      assert (Hq : is_Some (pixels im !! c')) by (apply elem_of_dom; by rewrite Hdom).
      destruct Hq as [q Hq]. exists q. split; [done|]. by eapply Hall. }
  rewrite (clean_image_of_state _ _ _ _ Hrun), Hfull, size_bounds by lia.
  do 2 f_equal. unfold Masker.image_new. f_equal. apply map_eq. intros c.
  destruct (decide (c ∈ bounds (width im) (height im))) as [Hc|Hc].
  - rewrite (proj2 (lookup_gset_to_gmap_Some _ _ _ _) (conj Hc eq_refl)).
    apply (inv_cleared _ _ _ _ Hinv). by rewrite Hfull.
  - rewrite (proj2 (lookup_gset_to_gmap_None _ _ _) Hc).
    apply not_elem_of_dom. by rewrite (inv_dom _ _ _ _ Hinv).
Qed.

(** X9.  An image of one colour that is not transparent is cleared as a
    whole for every tolerance that is not negative: every pixel becomes
    [(0, 0, 0, 0)] and the count is [W * H]. *)
Theorem uniform_image_cleared
    (im : image) (bg_hints : list (list Z)) (tolerance : Z) (p0 : color) :
  wf_image im → uniform im p0 → alpha p0 ≠ 0 → 0 ≤ tolerance →
  clean_image im bg_hints tolerance
  = Ok (Masker.image_new (width im) (height im) transparent_black,
        Z.to_nat (width im * height im)).
Proof.
  intros Hwf Hu Ha Ht. pose proof Hwf as (HW & HH & Hdom & _).
  apply clean_floods_all; [done| |].
  - intros c c' p q Hp Hq. rewrite (Hu c p Hp), (Hu c' q Hq).
    by apply distance_le_refl.
  - intros Hb.
    assert (∃ b, b ∈ border_pixels (width im) (height im)) as [b H0].
    { exists (0, 0). apply elem_of_border_pixels_iff; [done..|]. split.
      - apply elem_of_bounds. simpl. lia.
      - by left. }
    specialize (Hb b H0).
    destruct (pixels im !! b) as [p|] eqn:Hp; simpl in Hb; [|discriminate Hb].
    rewrite (Hu _ _ Hp) in Hb. congruence.
Qed.

Lemma uniform_image_cleared_witness :
  clean_image uniform10 [[255; 255; 255]] 10
  = Ok (Masker.image_new (width uniform10) (height uniform10) transparent_black,
        Z.to_nat (width uniform10 * height uniform10)).
Proof.
  apply (uniform_image_cleared uniform10 [[255; 255; 255]] 10 (40, 80, 120, 255)).
  - apply wf_image_check. vm_compute. reflexivity.
  - apply (bool_decide_unpack _). vm_compute. exact I.
  - done.
  - lia.
Defined.

Lemma byte_diff_sq (a b : Z) :
  0 ≤ a ≤ 255 → 0 ≤ b ≤ 255 → (a - b) ^ 2 ≤ 65025.
Proof.
  intros Ha Hb. assert (-255 ≤ a - b ≤ 255) as Hd by lia.
  generalize dependent (a - b). intros d Hd. nia.
Qed.

(** X10.  From tolerance 442 on (the largest distance between two RGB
    values is the root of [3 * 255 ^ 2], below 442) every pixel passes
    the test: if some border pixel is not transparent, the call clears
    the whole image. *)
Theorem huge_tolerance_clears_all
    (im : image) (bg_hints : list (list Z)) (tolerance : Z) :
  wf_image im → 442 ≤ tolerance → ¬ border_transparent im →
  clean_image im bg_hints tolerance
  = Ok (Masker.image_new (width im) (height im) transparent_black,
        Z.to_nat (width im * height im)).
Proof.
  intros Hwf Ht Hb. pose proof Hwf as (_ & _ & _ & Hbytes).
  apply clean_floods_all; [done| |done].
  intros c c' p q Hp Hq.
  pose proof (Hbytes c p Hp) as Hpb. pose proof (Hbytes c' q Hq) as Hqb.
  destruct p as [[[r g] b] a], q as [[[r' g'] b'] a'].
  unfold pixel_ok in *. cbn [channels] in Hpb, Hqb.
  apply Forall_cons in Hpb as [? Hpb]. apply Forall_cons in Hpb as [? Hpb].
  apply Forall_cons in Hpb as [? _].
  apply Forall_cons in Hqb as [? Hqb]. apply Forall_cons in Hqb as [? Hqb].
  apply Forall_cons in Hqb as [? _].
  unfold distance_le. rewrite get_distance_sq_pixels.
  pose proof (byte_diff_sq r r') as Hr. pose proof (byte_diff_sq g g') as Hg.
  pose proof (byte_diff_sq b b') as Hbl.
  assert (442 * 442 ≤ tolerance * tolerance) by nia.
  apply andb_true_intro. split; apply Z.leb_le; lia.
Qed.

Lemma huge_tolerance_clears_all_witness :
  clean_image row3 [] 442
  = Ok (Masker.image_new (width row3) (height row3) transparent_black,
        Z.to_nat (width row3 * height row3)).
Proof.
  apply (huge_tolerance_clears_all row3 [] 442 wf_row3); [lia|].
  intros Hb. specialize (Hb (0, 0)). discriminate Hb.
  apply (bool_decide_unpack _). vm_compute. exact I.
Defined.

(** ** What the crop keeps *)

(** X11.  Whatever the drawing primitive covers, [circular_crop] returns
    an image of the size of its input in which every pixel is either the
    source pixel at that place or [(0, 0, 0, 0)]: it never changes a
    colour or an alpha other than by clearing the pixel. *)
Theorem circular_crop_keeps_or_clears
    (draw_ellipse : box → result (coord → bool)) (img out : image) :
  circular_crop draw_ellipse img = Ok out →
  width out = width img ∧ height out = height img ∧
  dom (pixels out) = bounds (width img) (height img) ∧
  ∀ c p, pixels out !! c = Some p →
    p = transparent_black ∨ pixels img !! c = Some p.
Proof.
  intros Ha. destruct (circular_crop_ok_inv _ _ _ Ha) as [covers Hd].
  destruct (circular_crop_lookup draw_ellipse img covers Hd)
    as (out' & Ha' & Hw & Hh & Hlook).
  assert (out' = out) as -> by congruence.
  split; [done|]. split; [done|]. split.
  - apply set_eq. intros c. rewrite elem_of_dom, Hlook.
    destruct (decide (c ∈ bounds (width img) (height img))) as [Hc|Hc].
    + split; [done|]. by eexists.
    + split; [by intros [? ?]|done].
  - intros c p. rewrite Hlook.
    destruct (decide (c ∈ bounds (width img) (height img))); [|done].
    intros [= <-]. destruct (covers c); [|by left].
    destruct (pixels img !! c) as [q|]; simpl; [by right|by left].
Qed.

Lemma circular_crop_keeps_or_clears_witness :
  ∃ out, circular_crop ideal_ellipse opaque6 = Ok out ∧
    width out = width opaque6 ∧ height out = height opaque6 ∧
    dom (pixels out) = bounds (width opaque6) (height opaque6) ∧
    ∀ c p, pixels out !! c = Some p →
      p = transparent_black ∨ pixels opaque6 !! c = Some p.
Proof.
  eexists. split; [vm_compute; reflexivity|].
  apply (circular_crop_keeps_or_clears ideal_ellipse opaque6).
  vm_compute. reflexivity.
Defined.

(** A pixel inside the box of line 19 is at least two columns and rows
    from the left and upper edge and one from the right and lower edge;
    and there is such a pixel only from size 4 on. *)
Lemma box_frame (W H : Z) (c : coord) :
  ((ellipse_box W H).1.1.1 <= inject_Z c.1)%Q →
  (inject_Z c.1 <= (ellipse_box W H).1.2)%Q →
  ((ellipse_box W H).1.1.2 <= inject_Z c.2)%Q →
  (inject_Z c.2 <= (ellipse_box W H).2)%Q →
  2 ≤ c.1 ≤ W - 2 ∧ 2 ≤ c.2 ≤ H - 2 ∧ 4 ≤ Z.min W H.
Proof.
  unfold ellipse_box, center, radius. cbn [fst snd].
  assert (Hmw : (inject_Z (Z.min W H) <= inject_Z W)%Q)
    by (rewrite <- Zle_Qle; lia).
  assert (Hmh : (inject_Z (Z.min W H) <= inject_Z H)%Q)
    by (rewrite <- Zle_Qle; lia).
  rewrite !half_Q. intros H1 H2 H3 H4.
  assert (Hx0 : (inject_Z 2 <= inject_Z c.1)%Q)
    by (change (inject_Z 2) with 2%Q; lra).
  assert (Hy0 : (inject_Z 2 <= inject_Z c.2)%Q)
    by (change (inject_Z 2) with 2%Q; lra).
  assert (Hx1 : (inject_Z c.1 <= inject_Z (W - 2))%Q).
  { rewrite inject_Z_sub. change (inject_Z 2) with 2%Q. lra. }
  assert (Hy1 : (inject_Z c.2 <= inject_Z (H - 2))%Q).
  { rewrite inject_Z_sub. change (inject_Z 2) with 2%Q. lra. }
  assert (Hm : (inject_Z 4 <= inject_Z (Z.min W H))%Q).
  { change (inject_Z 4) with 4%Q. lra. }
  rewrite <- Zle_Qle in Hx0, Hy0, Hx1, Hy1, Hm. lia.
Qed.

Lemma crop_uncovered (draw_ellipse : box → result (coord → bool))
    (img out : image) (c : coord) :
  paints_within_box draw_ellipse →
  circular_crop draw_ellipse img = Ok out →
  c ∈ bounds (width img) (height img) →
  ¬ (2 ≤ c.1 ≤ width img - 2 ∧ 2 ≤ c.2 ≤ height img - 2 ∧
     4 ≤ Z.min (width img) (height img)) →
  pixels out !! c = Some transparent_black.
Proof.
  intros Hbox Ha Hc Hout. destruct (circular_crop_ok_inv _ _ _ Ha) as [covers Hd].
  destruct (circular_crop_lookup draw_ellipse img covers Hd)
    as (out' & Ha' & Hw & Hh & Hlook).
  assert (out' = out) as -> by congruence.
  rewrite Hlook, decide_True by done.
  destruct (covers c) eqn:Hcov; [|done]. exfalso. apply Hout.
  remember (ellipse_box (width img) (height img)) as bx eqn:Hbx.
  destruct bx as [[[x0 y0] x1] y1].
  destruct (Hbox x0 y0 x1 y1 covers c Hd Hcov) as (H1 & H2 & H3 & H4).
  apply box_frame; rewrite <- Hbx; done.
Qed.

Lemma ideal_ellipse_within_box : paints_within_box ideal_ellipse.
Proof.
  intros x0 y0 x1 y1 covers c [= <-] Hc.
  repeat (apply andb_prop in Hc as [Hc ?]).
  repeat match goal with
         | H : Qle_bool _ _ = true |- _ => apply Qle_bool_iff in H
         end.
  rewrite !half_Q in *. repeat split; lra.
Qed.

(** X12.  With a drawing primitive that covers nothing outside the box
    it is given, [circular_crop] clears the two left columns, the two
    upper rows, the last column and the last row, whatever they held. *)
Theorem circular_crop_clears_frame
    (draw_ellipse : box → result (coord → bool)) (img out : image) :
  paints_within_box draw_ellipse →
  circular_crop draw_ellipse img = Ok out →
  ∀ c, c ∈ bounds (width img) (height img) →
    c.1 < 2 ∨ width img - 2 < c.1 ∨ c.2 < 2 ∨ height img - 2 < c.2 →
    pixels out !! c = Some transparent_black.
Proof.
  intros Hbox Ha c Hc Hframe.
  apply (crop_uncovered draw_ellipse img out c Hbox Ha Hc). lia.
Qed.

Lemma circular_crop_clears_frame_witness :
  ∃ out, circular_crop ideal_ellipse opaque6 = Ok out ∧
    ∀ c, c ∈ bounds (width opaque6) (height opaque6) →
      c.1 < 2 ∨ width opaque6 - 2 < c.1 ∨ c.2 < 2 ∨ height opaque6 - 2 < c.2 →
      pixels out !! c = Some transparent_black.
Proof.
  eexists. split; [vm_compute; reflexivity|].
  apply (circular_crop_clears_frame ideal_ellipse opaque6 _
           ideal_ellipse_within_box).
  vm_compute. reflexivity.
Defined.

(** X13.  An image less than 4 pixels wide or high has a negative
    radius and an inverted box.  [circular_crop] then fails with the
    error of the primitive when the primitive rejects that box; when the
    primitive accepts it and covers nothing outside its box,
    [circular_crop] returns the image fully transparent. *)
Theorem circular_crop_small_image
    (draw_ellipse : box → result (coord → bool)) (img : image) :
  Z.min (width img) (height img) < 4 →
  (radius (width img) (height img) < 0)%Q ∧
  inverted_box (ellipse_box (width img) (height img)) ∧
  (∀ e, draw_ellipse (ellipse_box (width img) (height img)) = Err e →
        circular_crop draw_ellipse img = Err e) ∧
  (rejects_improper draw_ellipse →
   circular_crop draw_ellipse img = Err ValueError) ∧
  (∀ covers,
     draw_ellipse (ellipse_box (width img) (height img)) = Ok covers →
     paints_within_box draw_ellipse →
     ∃ out, circular_crop draw_ellipse img = Ok out ∧
       width out = width img ∧ height out = height img ∧
       ∀ c, c ∈ bounds (width img) (height img) →
         pixels out !! c = Some transparent_black) ∧
  circular_crop strict_ellipse img = Err ValueError ∧
  (∃ out, circular_crop ideal_ellipse img = Ok out ∧
     ∀ c, c ∈ bounds (width img) (height img) →
       pixels out !! c = Some transparent_black).
Proof.
  intros Hsmall. split; [by apply radius_negative|].
  pose proof (proj2 (ellipse_box_inverted _ _) Hsmall) as Hinv.
  assert (Hclear : ∀ draw covers,
    draw (ellipse_box (width img) (height img)) = Ok covers →
    paints_within_box draw →
    ∃ out, circular_crop draw img = Ok out ∧
      width out = width img ∧ height out = height img ∧
      ∀ c, c ∈ bounds (width img) (height img) →
        pixels out !! c = Some transparent_black).
  { intros draw covers Hd Hbox.
    destruct (circular_crop_lookup draw img covers Hd)
      as (out & Ha & Hw & Hh & _).
    exists out. split; [done|]. split; [done|]. split; [done|].
    intros c Hc. apply (crop_uncovered draw img out c Hbox Ha Hc). lia. }
  split; [done|]. split; [intros e; apply circular_crop_err|].
  split; [|split; [|split]].
  - intros Hrej. by apply circular_crop_err, Hrej, inverted_not_proper.
  - apply Hclear.
  - by apply circular_crop_err, strict_ellipse_rejects_improper,
      inverted_not_proper.
  - destruct (ideal_ellipse_accepts (ellipse_box (width img) (height img)))
      as [covers Hd].
    destruct (Hclear ideal_ellipse covers Hd ideal_ellipse_within_box)
      as (out & Ha & _ & _ & Hall).
    by exists out.
Qed.

Lemma circular_crop_small_image_witness :
  (radius (width row3) (height row3) < 0)%Q ∧
  inverted_box (ellipse_box (width row3) (height row3)) ∧
  (∀ e, ideal_ellipse (ellipse_box (width row3) (height row3)) = Err e →
        circular_crop ideal_ellipse row3 = Err e) ∧
  (rejects_improper ideal_ellipse →
   circular_crop ideal_ellipse row3 = Err ValueError) ∧
  (∀ covers,
     ideal_ellipse (ellipse_box (width row3) (height row3)) = Ok covers →
     paints_within_box ideal_ellipse →
     ∃ out, circular_crop ideal_ellipse row3 = Ok out ∧
       width out = width row3 ∧ height out = height row3 ∧
       ∀ c, c ∈ bounds (width row3) (height row3) →
         pixels out !! c = Some transparent_black) ∧
  circular_crop strict_ellipse row3 = Err ValueError ∧
  (∃ out, circular_crop ideal_ellipse row3 = Ok out ∧
     ∀ c, c ∈ bounds (width row3) (height row3) →
       pixels out !! c = Some transparent_black).
Proof.
  apply (circular_crop_small_image ideal_ellipse row3). simpl. lia.
Defined.

(** X14.  The order of the two passes matters: after [circular_crop]
    (with a primitive that covers nothing outside its box) the first and
    last column and row are transparent, so [clean_image] finds no seed,
    changes nothing and reports 0, for any hints and tolerance. *)
Theorem clean_after_crop_is_noop
    (draw_ellipse : box → result (coord → bool)) (img out : image)
    (bg_hints : list (list Z)) (tolerance : Z) :
  paints_within_box draw_ellipse → wf_image img →
  circular_crop draw_ellipse img = Ok out →
  clean_image out bg_hints tolerance = Ok (out, 0%nat).
Proof.
  intros Hbox Hwf Ha.
  destruct (circular_crop_wf _ _ _ Hwf Ha) as (Hwf' & Hw & Hh).
  destruct (clean_noop_iff out bg_hints tolerance Hwf') as [Hnoop _].
  apply Hnoop. intros b Hb. rewrite Hw, Hh in Hb.
  destruct Hwf as (HW & HH & _).
  apply elem_of_border_pixels_iff in Hb as [Hbb Hedge]; [|done..].
  rewrite (crop_uncovered draw_ellipse img out b Hbox Ha Hbb); [done|].
  unfold on_edge in Hedge. lia.
Qed.

Lemma clean_after_crop_is_noop_witness :
  ∃ out, circular_crop ideal_ellipse opaque6 = Ok out ∧
         clean_image out [] 30 = Ok (out, 0%nat).
Proof.
  eexists. split; [vm_compute; reflexivity|].
  apply (clean_after_crop_is_noop ideal_ellipse opaque6 _ [] 30
           ideal_ellipse_within_box).
  - apply wf_image_check. vm_compute. reflexivity.
  - vm_compute. reflexivity.
Defined.

(** ** analyze_img.py *)

Import Analyzer.

Lemma pixel_index_out (W H : Z) (c : coord) :
  0 ≤ c.1 → 0 ≤ c.2 → c ∉ bounds W H → pixel_index W H c = Err IndexError.
Proof.
  intros Hx Hy Hc. rewrite elem_of_bounds in Hc. unfold pixel_index.
  destruct (Z.ltb_spec c.1 0); [lia|]. destruct (Z.ltb_spec c.2 0); [lia|].
  destruct (Z.leb_spec 0 c.1); [|lia]. destruct (Z.leb_spec 0 c.2); [|lia].
  destruct (Z.ltb_spec c.1 W); destruct (Z.ltb_spec c.2 H); simpl; try done.
  lia.
Qed.

Lemma read_row_ok (W H : Z) (px : gmap coord color) (y : Z) (xs : list Z) :
  dom px = bounds W H → (∀ x, x ∈ xs → (x, y) ∈ bounds W H) →
  ∃ row, read_row W H px y xs = Ok row ∧
         Forall2 (λ x p, px !! (x, y) = Some p) xs row.
Proof.
  intros Hdom. induction xs as [|x xs IH]; intros Hxs.
  - exists []. by split.
  - destruct IH as (row & Hrow & Hall).
    { intros x' Hx'. apply Hxs. by right. }
    assert (Hc : (x, y) ∈ bounds W H) by (apply Hxs; by left).
    assert (Hp : is_Some (px !! (x, y))) by (apply elem_of_dom; by rewrite Hdom).
    destruct Hp as [p Hp]. exists (p :: row). split; [|by constructor].
    cbn [read_row]. rewrite (proj2 (getpixel_ok W H px (x, y) p Hc) Hp).
    simpl. by rewrite Hrow.
Qed.

Lemma read_row_err (W H : Z) (px : gmap coord color) (y : Z) (xs : list Z) :
  dom px = bounds W H → 0 ≤ y → (∀ x, x ∈ xs → 0 ≤ x) →
  (∃ x, x ∈ xs ∧ (x, y) ∉ bounds W H) →
  read_row W H px y xs = Err IndexError.
Proof.
  intros Hdom Hy. induction xs as [|x xs IH]; intros Hpos (x' & Hx' & Hout).
  - by apply elem_of_nil in Hx'.
  - cbn [read_row].
    destruct (decide ((x, y) ∈ bounds W H)) as [Hc|Hc].
    + assert (Hp : is_Some (px !! (x, y))) by (apply elem_of_dom; by rewrite Hdom).
      destruct Hp as [p Hp].
      rewrite (proj2 (getpixel_ok W H px (x, y) p Hc) Hp). simpl.
      rewrite IH; [done| |].
      * intros x0 Hx0. apply Hpos. by right.
      * apply elem_of_cons in Hx' as [->|Hx']; [done|]. by exists x'.
    + unfold getpixel. rewrite pixel_index_out; [done| |done..].
      simpl. apply Hpos. by left.
Qed.

Lemma print_rows_ok (W H : Z) (px : gmap coord color) (ys : list Z) :
  dom px = bounds W H → 5 ≤ W → (∀ y, y ∈ ys → 0 ≤ y < H) →
  ∃ out, print_rows W H px ys = (out, Ok tt) ∧ out.*1 = ys ∧
    ∀ y row, (y, row) ∈ out →
      Forall2 (λ x p, px !! (x, y) = Some p) (range 5) row.
Proof.
  intros Hdom HW. induction ys as [|y ys IH]; intros Hys.
  - exists []. split; [done|]. split; [done|].
    intros y row Hin. by apply elem_of_nil in Hin.
  - destruct IH as (out & Hout & Hfst & Hrows).
    { intros y' Hy'. apply Hys. by right. }
    destruct (read_row_ok W H px y (range 5) Hdom) as (row & Hrow & Hall).
    { intros x Hx. apply elem_of_range in Hx. apply elem_of_bounds. simpl.
      specialize (Hys y). split; [lia|]. apply Hys. by left. }
    exists ((y, row) :: out). cbn [print_rows]. rewrite Hrow, Hout.
    split; [done|]. split; [rewrite fmap_cons; simpl; by f_equal|].
    intros y' row' Hin. apply elem_of_cons in Hin as [[= -> ->]|Hin]; [done|].
    by apply Hrows.
Qed.

Lemma print_rows_app (W H : Z) (px : gmap coord color) (ys1 ys2 : list Z)
    (out : list (Z * list color)) :
  print_rows W H px ys1 = (out, Ok tt) →
  print_rows W H px (ys1 ++ ys2)
  = (out ++ (print_rows W H px ys2).1, (print_rows W H px ys2).2).
Proof.
  revert out. induction ys1 as [|y ys1 IH]; intros out Hout.
  - injection Hout as <-. simpl. by destruct (print_rows W H px ys2).
  - cbn [print_rows app] in *.
    destruct (read_row W H px y (range 5)) as [row|e]; [|done].
    destruct (print_rows W H px ys1) as [out1 r1] eqn:H1.
    injection Hout as <- ->. by rewrite (IH out1 eq_refl).
Qed.

Lemma row0_colors_ok (W H : Z) (px : gmap coord color) (xs : list Z)
    (acc : gset color) :
  dom px = bounds W H → (∀ x, x ∈ xs → (x, 0) ∈ bounds W H) →
  ∃ colors, row0_colors W H px xs acc = Ok colors ∧
    (∀ p, p ∈ colors ↔ p ∈ acc ∨ ∃ x, x ∈ xs ∧ px !! (x, 0) = Some p) ∧
    (size colors ≤ size acc + length xs)%nat.
Proof.
  intros Hdom. revert acc. induction xs as [|x xs IH]; intros acc Hxs.
  - exists acc. split; [done|]. split; [|simpl; lia].
    intros p. split; [by left|]. intros [?|(x & Hx & _)]; [done|].
    by apply elem_of_nil in Hx.
  - assert (Hc : (x, 0) ∈ bounds W H) by (apply Hxs; by left).
    assert (Hp : is_Some (px !! (x, 0))) by (apply elem_of_dom; by rewrite Hdom).
    destruct Hp as [p Hp].
    destruct (IH ({[p]} ∪ acc)) as (colors & Hrun & Hmem & Hsize).
    { intros x' Hx'. apply Hxs. by right. }
    exists colors. cbn [row0_colors].
    rewrite (proj2 (getpixel_ok W H px (x, 0) p Hc) Hp). simpl.
    split; [done|]. split.
    + intros q. rewrite Hmem, elem_of_union, elem_of_singleton. split.
      * intros [[->|?]|(x' & Hx' & Hq)].
        -- right. exists x. split; [by left|done].
        -- by left.
        -- right. exists x'. split; [by right|done].
      * intros [?|(x' & Hx' & Hq)]; [left; by right|].
        apply elem_of_cons in Hx' as [->|Hx'].
        -- left. left. congruence.
        -- right. by exists x'.
    + pose proof (size_union_alt ({[p]} : gset color) acc) as Hu.
      rewrite size_singleton in Hu.
      pose proof (subseteq_size (acc ∖ {[p]}) acc) as Hd.
      simpl. rewrite Hu in Hsize.
      assert (size (acc ∖ {[p]}) ≤ size acc)%nat by (apply Hd; set_solver).
      lia.
Qed.

(** X15.  On a well-formed image at least 5 pixels wide and high,
    [analyze] prints the five rows 0 to 4, each with the image's pixels
    at columns 0 to 4, and then the number of distinct colours of row 0,
    which lies between 1 and the width. *)
Theorem analyze_reports_block (img : image) :
  wf_image img → 5 ≤ width img → 5 ≤ height img →
  ∃ out (colors : gset color),
    analyze img = (out, Ok (size colors)) ∧
    out.*1 = range 5 ∧
    (∀ y row, (y, row) ∈ out →
       Forall2 (λ x p, pixels img !! (x, y) = Some p) (range 5) row) ∧
    (∀ p, p ∈ colors ↔
          ∃ x, 0 ≤ x < width img ∧ pixels img !! (x, 0) = Some p) ∧
    (1 ≤ size colors ≤ Z.to_nat (width img))%nat.
Proof.
  intros (HW & HH & Hdom & _) HW5 HH5.
  destruct (print_rows_ok (width img) (height img) (pixels img) (range 5)
              Hdom HW5) as (out & Hout & Hfst & Hrows).
  { intros y Hy. apply elem_of_range in Hy. lia. }
  destruct (row0_colors_ok (width img) (height img) (pixels img)
              (range (width img)) ∅ Hdom) as (colors & Hrun & Hmem & Hsize).
  { intros x Hx. apply elem_of_range in Hx. apply elem_of_bounds. simpl. lia. }
  exists out, colors. unfold analyze. rewrite Hout. simpl. rewrite Hrun. simpl.
  split; [done|]. split; [done|]. split; [done|].
  assert (Hmem' : ∀ p, p ∈ colors ↔
    ∃ x, 0 ≤ x < width img ∧ pixels img !! (x, 0) = Some p).
  { intros p. rewrite Hmem. split.
    - intros [Hp|(x & Hx & Hp)]; [by apply elem_of_empty in Hp|].
      exists x. split; [by apply elem_of_range|done].
    - intros (x & Hx & Hp). right. exists x. split; [by apply elem_of_range|done]. }
  split; [done|]. split.
  - assert (H0 : is_Some (pixels img !! (0, 0))).
    { apply elem_of_dom. rewrite Hdom. apply elem_of_bounds. simpl. lia. }
    destruct H0 as [p Hp].
    assert (Hin : p ∈ colors) by (apply Hmem'; exists 0; split; [lia|done]).
    destruct (decide (size colors = 0%nat)) as [Hz|Hz]; [|lia].
    apply size_empty_iff in Hz. by apply Hz in Hin.
  - rewrite size_empty, length_range in Hsize. lia.
Qed.

Lemma analyze_reports_block_witness :
  ∃ out (colors : gset color),
    analyze green_centre5 = (out, Ok (size colors)) ∧
    out.*1 = range 5 ∧
    (∀ y row, (y, row) ∈ out →
       Forall2 (λ x p, pixels green_centre5 !! (x, y) = Some p) (range 5) row) ∧
    (∀ p, p ∈ colors ↔
          ∃ x, 0 ≤ x < width green_centre5 ∧
               pixels green_centre5 !! (x, 0) = Some p) ∧
    (1 ≤ size colors ≤ Z.to_nat (width green_centre5))%nat.
Proof.
  apply (analyze_reports_block green_centre5 wf_green_centre5).
  - vm_compute. discriminate.
  - vm_compute. discriminate.
Defined.

(** X16.  On a well-formed image less than 5 pixels wide or high,
    [analyze] ends with [IndexError] and never reports the colour count:
    narrower than 5 it prints no row at all; at least 5 wide but less
    than 5 high it prints the image's rows, [height] of them, and
    fails at the next one. *)
Theorem analyze_small_image (img : image) :
  wf_image img → width img < 5 ∨ height img < 5 →
  ∃ out,
    analyze img = (out, Err IndexError) ∧
    (width img < 5 → out = []) ∧
    (5 ≤ width img →
       out.*1 = range (height img) ∧
       ∀ y row, (y, row) ∈ out →
         Forall2 (λ x p, pixels img !! (x, y) = Some p) (range 5) row).
Proof.
  intros (HW & HH & Hdom & _) Hsmall. unfold analyze.
  destruct (Z.lt_ge_cases (width img) 5) as [HW5|HW5].
  - exists []. split; [|split; [done|lia]].
    assert (Hrow : read_row (width img) (height img) (pixels img) 0 (range 5)
                   = Err IndexError).
    { apply read_row_err; [done|lia| |].
      - intros x Hx. apply elem_of_range in Hx. lia.
      - exists 4. split; [by apply elem_of_range|].
        rewrite elem_of_bounds. simpl. lia. }
    change (range 5) with (0 :: [1; 2; 3; 4]) at 1. cbn [print_rows].
    by rewrite Hrow.
  - assert (HH5 : height img < 5) by lia.
    assert (Hsplit : ∃ rest, range 5 = range (height img) ++ height img :: rest).
    { assert (height img = 1 ∨ height img = 2 ∨ height img = 3 ∨ height img = 4)
        as [-> | [-> | [-> | ->]]] by lia; by eexists. }
    destruct Hsplit as [rest Hsplit].
    destruct (print_rows_ok (width img) (height img) (pixels img)
                (range (height img)) Hdom) as (out & Hout & Hfst & Hrows);
      [lia| |].
    { intros y Hy. by apply elem_of_range in Hy. }
    assert (Hrow : read_row (width img) (height img) (pixels img) (height img)
                     (range 5) = Err IndexError).
    { apply read_row_err; [done|lia| |].
      - intros x Hx. apply elem_of_range in Hx. lia.
      - exists 0. split; [by apply elem_of_range|].
        rewrite elem_of_bounds. simpl. lia. }
    exists out. rewrite Hsplit at 1.
    rewrite (print_rows_app _ _ _ _ _ out Hout). cbn [print_rows].
    rewrite Hrow. simpl. rewrite app_nil_r.
    split; [done|]. split; [lia|]. intros _. by split.
Qed.

Lemma analyze_small_image_witness :
  ∃ out,
    analyze row3 = (out, Err IndexError) ∧
    (width row3 < 5 → out = []) ∧
    (5 ≤ width row3 →
       out.*1 = range (height row3) ∧
       ∀ y row, (y, row) ∈ out →
         Forall2 (λ x p, pixels row3 !! (x, y) = Some p) (range 5) row).
Proof.
  apply (analyze_small_image row3 wf_row3). left. reflexivity.
Defined.
